(** * Stock-Price-Visualizer: the analysis module of [stock_toolkit.py]

    A shallow embedding of MODULE 2 (ANALYSIS) of [src/stock_toolkit.py]
    and of the guard of [plot_correlation_heatmap], with the properties of
    the analytics engine stated and proved over it; further on, of
    [fetch_stock_data] (the download itself is a parameter), of the data
    that [plot_full_analysis] reads, and of two parts of [main]: the
    processing of the TICKERS and [--ma] arguments and the single-ticker
    branch of the full analysis.

    Numbers.  The program computes on float64 columns of a pandas
    DataFrame.  A float is modelled as an exact rational or one of the
    three IEEE special values (NaN and the two infinities); arithmetic
    follows IEEE 754 on the special values and is exact on the rationals,
    so rounding is abstracted away and zero carries no sign.  pandas uses
    NaN as its missing-value marker: the "undefined" positions of a rolling
    window are NaN positions.

    Library primitives.  [Series.diff], [Series.where], [Series.rolling(...)
    .mean()], [DataFrame.xs], [DataFrame.iloc], [DataFrame.corr] are pandas
    primitives; each is modelled by its documented behaviour, next to the
    source line that calls it. *)

From Stdlib Require Import String DecimalString.
From Stdlib Require DecimalPos DecimalZ.
From Stdlib Require Import Ascii.
From stdpp Require Import gmap.
From Stdlib Require Import List ZArith QArith Qreals Reals Lia Psatz.
Import ListNotations.

Local Open Scope Q_scope.

(** ** Float values *)

Module Float.

Inductive fval : Type :=
| Fin (q : Q)
| PInf
| NInf
| NaN.

(** Equality of floats: rationals up to [Qeq], special values by name.
    NaN is a marker here, so [feq NaN NaN] holds (this is [isna]-style
    identity of the marker, not the IEEE [==] test). *)
Definition feq (x y : fval) : Prop :=
  match x, y with
  | Fin a, Fin b => a == b
  | PInf, PInf | NInf, NInf | NaN, NaN => True
  | _, _ => False
  end.

Definition fneg (x : fval) : fval :=
  match x with
  | Fin a => Fin (- a)
  | PInf => NInf
  | NInf => PInf
  | NaN => NaN
  end.

Definition fadd (x y : fval) : fval :=
  match x, y with
  | NaN, _ | _, NaN => NaN
  | Fin a, Fin b => Fin (a + b)
  | PInf, NInf | NInf, PInf => NaN
  | PInf, _ | _, PInf => PInf
  | NInf, _ | _, NInf => NInf
  end.

Definition fsub (x y : fval) : fval := fadd x (fneg y).

(** The sign of an infinite product or quotient. *)
Definition signed_inf (positive : bool) : fval :=
  if positive then PInf else NInf.

Definition fmul (x y : fval) : fval :=
  match x, y with
  | NaN, _ | _, NaN => NaN
  | Fin a, Fin b => Fin (a * b)
  | Fin a, PInf | PInf, Fin a =>
      match a ?= 0 with Eq => NaN | Gt => PInf | Lt => NInf end
  | Fin a, NInf | NInf, Fin a =>
      match a ?= 0 with Eq => NaN | Gt => NInf | Lt => PInf end
  | PInf, PInf | NInf, NInf => PInf
  | PInf, NInf | NInf, PInf => NInf
  end.

(** IEEE division: a non-zero finite value over zero is an infinity, zero
    over zero is NaN, a finite value over an infinity is zero.  In IEEE the
    sign of [a / 0] also depends on the sign of the zero; here it is the
    sign of [a].  The analysis module passes such a quotient only to
    [100 - 100 / (1 + rs)], which is 100 for either infinity (lemma
    [rsi_of_rs_infinite]). *)
Definition fdiv (x y : fval) : fval :=
  match x, y with
  | NaN, _ | _, NaN => NaN
  | Fin a, Fin b =>
      if Qeq_bool b 0
      then match a ?= 0 with Eq => NaN | Gt => PInf | Lt => NInf end
      else Fin (a / b)
  | Fin _, PInf | Fin _, NInf => Fin 0
  | PInf, Fin b => signed_inf (negb (Qle_bool b 0) || Qeq_bool b 0)
  | NInf, Fin b => signed_inf (Qle_bool b 0 && negb (Qeq_bool b 0))
  | _, _ => NaN
  end.

(** [x > 0] and [x < 0]; every comparison with NaN is false. *)
Definition fgt0 (x : fval) : bool :=
  match x with
  | Fin a => negb (Qle_bool a 0)
  | PInf => true
  | _ => false
  end.

Definition flt0 (x : fval) : bool :=
  match x with
  | Fin a => negb (Qle_bool 0 a)
  | NInf => true
  | _ => false
  end.

End Float.
Export Float.

Infix "=f=" := feq (at level 70, no associativity).

(** ** Exceptions *)

(** The Python exceptions the modelled calls can raise. *)
Inductive exn : Type :=
| KeyError      (* a column label that is not in the frame *)
| ValueError    (* rolling: "window must be an integer 0 or greater" *)
| IndexError    (* iloc[0] on a frame without rows *)
| TypeError.    (* not a frame of price columns; xs without a second level *)

Inductive result (A : Type) : Type :=
| Ok (a : A)
| Err (e : exn).
Arguments Ok {A} a.
Arguments Err {A} e.

Definition rbind {A B} (r : result A) (k : A -> result B) : result B :=
  match r with
  | Ok a => k a
  | Err e => Err e
  end.

(** ** Series: the pandas primitives used by the analysis module *)

Module Series.

Definition series : Type := list fval.

Fixpoint diff_from (prev : fval) (xs : series) : series :=
  match xs with
  | [] => []
  | x :: rest => fsub x prev :: diff_from x rest
  end.

(** [s.diff(1)]: the first position has no predecessor and is NaN. *)
Definition diff1 (xs : series) : series :=
  match xs with
  | [] => []
  | x :: rest => NaN :: diff_from x rest
  end.

(** [s.where(cond, other)]: keep the value where the condition holds,
    put [other] elsewhere.  The condition is a comparison, which is
    false on NaN, so a NaN position receives [other]. *)
Definition where_ (cond : fval -> bool) (other : fval) (xs : series) : series :=
  map (fun x => if cond x then x else other) xs.

(** Unary minus and the scalar broadcasts of [rs] and [rsi]. *)
Definition neg (xs : series) : series := map fneg xs.

Fixpoint zip_div (xs ys : series) : series :=
  match xs, ys with
  | x :: xs', y :: ys' => fdiv x y :: zip_div xs' ys'
  | _, _ => []
  end.

Definition Qsum (l : list Q) : Q := fold_right Qplus 0 l.

(** The observations of a window: rolling turns infinities into NaN
    before it aggregates, and NaN is skipped. *)
Fixpoint finite_obs (xs : series) : list Q :=
  match xs with
  | [] => []
  | Fin q :: rest => q :: finite_obs rest
  | _ :: rest => finite_obs rest
  end.

(** The trailing window of size [w] that ends at position [i]:
    positions [i-w+1 .. i], cut at the start of the series. *)
Definition window (w i : nat) (xs : series) : series :=
  skipn (S i - w) (firstn (S i) xs).

(** [rolling(window=w).mean()] at position [i], with the default
    [min_periods = w]: the mean of the observations when there are at
    least [w] (and at least one) of them, NaN otherwise. *)
Definition mean_at (w : nat) (xs : series) (i : nat) : fval :=
  let obs := finite_obs (window w i xs) in
  let nobs := length obs in
  if (w <=? nobs)%nat && (0 <? nobs)%nat
  then Fin (Qsum obs / inject_Z (Z.of_nat nobs))
  else NaN.

(** [s.rolling(window=w).mean()].  pandas rejects a negative window with
    a ValueError; a window of 0 or one longer than the series is
    accepted.  The windows of the model are those that fit a signed 64-bit
    integer: from 2^63 on pandas cannot convert the window and fails with
    an OverflowError, a case this definition does not have; the statements
    about lists of windows and about oversized windows stay below 2^63
    (see [accepted_window]). *)
Definition rolling_mean (w : Z) (xs : series) : result series :=
  if (w <? 0)%Z then Err ValueError
  else Ok (map (mean_at (Z.to_nat w) xs) (seq 0 (length xs))).

End Series.
Export Series.

(** ** DataFrames *)

Module Frame.

(** A column label: a plain name, or the (ticker, field) pair of the
    two-level columns that [yf.download(..., group_by='ticker')] gives. *)
Inductive label : Type :=
| L1 (name : string)
| L2 (ticker field : string).

Definition label_eqb (a b : label) : bool :=
  match a, b with
  | L1 x, L1 y => String.eqb x y
  | L2 t f, L2 t' f' => String.eqb t t' && String.eqb f f'
  | _, _ => false
  end.

(** The columns of a DataFrame, in column order.  All columns share the
    frame's row index, so the row index itself is left implicit. *)
Definition frame : Type := list (label * series).

(** [data[key]] *)
Fixpoint getitem (f : frame) (key : label) : result series :=
  match f with
  | [] => Err KeyError
  | (k, col) :: rest => if label_eqb k key then Ok col else getitem rest key
  end.

(** [data[key] = col]: replaces the column in place when the label
    exists, appends a new last column otherwise. *)
Fixpoint setitem (f : frame) (key : label) (col : series) : frame :=
  match f with
  | [] => [(key, col)]
  | (k, c) :: rest =>
      if label_eqb k key then (k, col) :: rest
      else (k, c) :: setitem rest key col
  end.

(** Whether the column index has two levels: the frame has columns and
    every label is a (ticker, field) pair.  [pd.DataFrame()] and the frames
    with plain column names have a single-level index. *)
Definition two_level (f : frame) : bool :=
  match f with
  | [] => false
  | _ => forallb (fun c => match fst c with L2 _ _ => true | L1 _ => false end) f
  end.

(** The columns whose second level is [field], labelled by their first
    level. *)
Fixpoint cross_section (f : frame) (field : string) : list (string * series) :=
  match f with
  | [] => []
  | (L2 t fld, col) :: rest =>
      if String.eqb fld field then (t, col) :: cross_section rest field
      else cross_section rest field
  | (L1 _, _) :: rest => cross_section rest field
  end.

(** [data.xs(field, level=1, axis=1)]: TypeError when the column index
    has no second level; otherwise the cross-section, KeyError when no
    column has [field] at its second level. *)
Definition xs (f : frame) (field : string) : result (list (string * series)) :=
  if two_level f then
    match cross_section f field with
    | [] => Err KeyError
    | cols => Ok cols
    end
  else Err TypeError.

(** [df.iloc[0]]: the first row, one value per column; IndexError when
    the frame has no rows. *)
Fixpoint iloc0 (cols : list (string * series)) : result (list fval) :=
  match cols with
  | [] => Ok []
  | (_, []) :: _ => Err IndexError
  | (_, x :: _) :: rest => rbind (iloc0 rest) (fun r => Ok (x :: r))
  end.

End Frame.
Export Frame.

(** ** Pearson correlation, as [DataFrame.corr()] computes it *)

Module Pearson.

(** An entry of the correlation matrix.  The coefficient divides by a
    square root, so a defined entry is a real number. *)
Inductive cval : Type :=
| CNaN
| CVal (r : R).

(** The observations of a pair of columns: the rows where both values
    are finite (pairwise deletion of missing values). *)
Fixpoint complete_obs (xs ys : series) : list (Q * Q) :=
  match xs, ys with
  | Fin a :: xs', Fin b :: ys' => (a, b) :: complete_obs xs' ys'
  | _ :: xs', _ :: ys' => complete_obs xs' ys'
  | _, _ => []
  end.

Definition mean (l : list Q) : Q :=
  Qsum l / inject_Z (Z.of_nat (length l)).

(** Deviations from the mean. *)
Definition dev (l : list Q) : list Q :=
  let m := mean l in map (fun x => x - m) l.

Fixpoint dot (a b : list Q) : Q :=
  match a, b with
  | x :: a', y :: b' => x * y + dot a' b'
  | _, _ => 0
  end.

(** Sum of squared deviations and of cross deviations. *)
Definition ssqdm (l : list Q) : Q := dot (dev l) (dev l).
Definition covxy (ps : list (Q * Q)) : Q :=
  dot (dev (map fst ps)) (dev (map snd ps)).

(** One coefficient: NaN without observations ([min_periods = 1]) and
    when the divisor [sqrt (ssqdm_x * ssqdm_y)] is zero. *)
Definition corr_pair (xs ys : series) : cval :=
  let ps := complete_obs xs ys in
  if (length ps <? 1)%nat then CNaN
  else
    let d2 := ssqdm (map fst ps) * ssqdm (map snd ps) in
    if Qeq_bool d2 0 then CNaN
    else CVal (Q2R (covxy ps) / sqrt (Q2R d2))%R.

(** The matrix, row by row, in column order. *)
Definition corr_matrix (cols : list (string * series)) : list (list cval) :=
  map (fun r => map (fun c => corr_pair (snd r) (snd c)) cols) cols.

End Pearson.
Export Pearson.

(** ** The store of DataFrame objects *)

Module Store.

(** What a reference can point to: a frame of float columns, or the
    square frame that [corr()] returns (row and column labels are the
    tickers). *)
Inductive obj : Type :=
| PriceFrame (f : frame)
| CorrFrame (tickers : list string) (rows : list (list cval)).

(** References and the store.  (Abbreviations, so that the lemmas of
    [gmap] apply to a store as it stands.) *)
Abbreviation loc := positive (only parsing).
Abbreviation heap := (gmap positive obj) (only parsing).

(** Computations that read and update the store and may raise. *)
Definition M (A : Type) : Type := heap -> result A * heap.

Definition ret {A} (a : A) : M A := fun h => (Ok a, h).

Definition bind {A B} (m : M A) (k : A -> M B) : M B :=
  fun h =>
    match m h with
    | (Ok a, h') => k a h'
    | (Err e, h') => (Err e, h')
    end.

Definition lift {A} (r : result A) : M A := fun h => (r, h).

(** Dereference a DataFrame argument. *)
Definition read (d : loc) : M frame :=
  fun h =>
    match h !! d with
    | Some (PriceFrame f) => (Ok f, h)
    | _ => (Err TypeError, h)
    end.

(** [data[key]] through the reference. *)
Definition getcol (d : loc) (key : label) : M series :=
  bind (read d) (fun f => lift (getitem f key)).

(** [data[key] = col]: the object behind [d] is updated in place. *)
Definition setcol (d : loc) (key : label) (col : series) : M unit :=
  bind (read d) (fun f h => (Ok tt, <[d := PriceFrame (setitem f key col)]> h)).

(** A new object gets a reference that was not in use. *)
Definition alloc (o : obj) : M loc :=
  fun h => let l := fresh (dom h) in (Ok l, <[l := o]> h).

End Store.
Export Store.

Notation "'do' x <- m ; k" := (bind m (fun x => k))
  (at level 10, x name, m at level 100, k at level 200).
Notation "'do_' m ; k" := (bind m (fun _ => k))
  (at level 10, m at level 100, k at level 200).

(** ** MODULE 2: ANALYSIS *)

Module Analysis.

(** [f'SMA_{window}'] *)
Definition sma_name (window : Z) : string :=
  String.append "SMA_" (NilZero.string_of_int (Z.to_int window)).

(** The body of the loop of [calculate_moving_averages]. *)
Fixpoint for_windows (data : loc) (ticker : string) (windows : list Z) : M unit :=
  match windows with
  | [] => ret tt
  | window :: rest =>
      do close <- getcol data (L2 ticker "Close");
      do sma <- lift (rolling_mean window close);
      do_ setcol data (L2 ticker (sma_name window)) sma;
      for_windows data ticker rest
  end.

Definition calculate_moving_averages
    (data : loc) (ticker : string) (windows : list Z) : M loc :=
  do_ for_windows data ticker windows;
  ret data.

(** [100 - (100 / (1 + rs))] on one value. *)
Definition rsi_of_rs (rs : fval) : fval :=
  fsub (Fin 100) (fdiv (Fin 100) (fadd (Fin 1) rs)).

(** The three series of [calculate_rsi] before the division. *)
Definition gain_input (close : series) : series :=
  where_ fgt0 (Fin 0) (diff1 close).
Definition loss_input (close : series) : series :=
  neg (where_ flt0 (Fin 0) (diff1 close)).

Definition calculate_rsi (data : loc) (ticker : string) (window : Z) : M loc :=
  do close <- getcol data (L2 ticker "Close");
  do gain <- lift (rolling_mean window (gain_input close));
  do loss <- lift (rolling_mean window (loss_input close));
  let rs := zip_div gain loss in
  let rsi := map rsi_of_rs rs in
  do_ setcol data (L2 ticker "RSI") rsi;
  ret data.

(** The default [window=14]. *)
Definition calculate_rsi_default (data : loc) (ticker : string) : M loc :=
  calculate_rsi data ticker 14.

(** [adj_close / adj_close.iloc[0] * 100]: every column is divided by
    its entry of the first row, then scaled. *)
Fixpoint normalize (cols : list (string * series)) (row0 : list fval) : frame :=
  match cols, row0 with
  | (t, col) :: cols', x0 :: row0' =>
      (L1 t, map (fun x => fmul (fdiv x x0) (Fin 100)) col) :: normalize cols' row0'
  | _, _ => []
  end.

Definition calculate_performance (data : loc) : M loc :=
  do f <- read data;
  do adj_close <- lift (xs f "Adj Close");
  do row0 <- lift (iloc0 adj_close);
  alloc (PriceFrame (normalize adj_close row0)).

Definition calculate_correlation (data : loc) : M loc :=
  do f <- read data;
  do close_prices <- lift (xs f "Close");
  alloc (CorrFrame (map fst close_prices) (corr_matrix close_prices)).

End Analysis.
Export Analysis.

(** ** MODULE 3: the guard of [plot_correlation_heatmap] *)

Module Plotting.

(** What the call does with its argument: print the warning and return,
    or draw the heatmap of the matrix. *)
Inductive heatmap_outcome : Type :=
| WarnSkip
| Heatmap (tickers : list string) (rows : list (list cval)).

Definition plot_correlation_heatmap (correlation_data : loc) : M heatmap_outcome :=
  fun h =>
    match h !! correlation_data with
    | Some (CorrFrame tickers rows) =>
        if (length rows <? 2)%nat then (Ok WarnSkip, h)
        else (Ok (Heatmap tickers rows), h)
    | _ => (Err TypeError, h)
    end.

End Plotting.
Export Plotting.

(** ** What the claims are measured against *)

Module Reference.

(** The arithmetic mean of [close[i-w+1 .. i]], read by index. *)
Definition slice_mean (close : list Q) (i w : nat) : Q :=
  Qsum (map (fun k => nth k close 0) (seq (S i - w) w)) / inject_Z (Z.of_nat w).

(** The closes of the scenario of the SMA claim. *)
Definition scenario_closes : list Q := [10; 11; 12; 11; 10; 11; 12; 13; 14; 15].

End Reference.
Export Reference.

(** ** Derived notions used in the statements *)

(** The RSI column that [calculate_rsi] stores, as a function of the
    close column (lemma [calculate_rsi_run]). *)
Definition rsi_column (w : nat) (close : series) : series :=
  map (fun i => rsi_of_rs (fdiv (mean_at w (gain_input close) i)
                                (mean_at w (loss_input close) i)))
      (seq 0 (length close)).

(** A finite entry is not negative (NaN and the infinities are not
    observations of a rolling window). *)
Definition nonneg (x : fval) : Prop :=
  match x with Fin q => 0 <= q | _ => True end.

(** The deltas of finite closes, [close[i] - close[i-1]], as rationals. *)
Fixpoint deltas_from (prev : Q) (close : list Q) : list Q :=
  match close with
  | [] => []
  | x :: rest => (x - prev) :: deltas_from x rest
  end.

(** On finite closes, the series that [calculate_rsi] averages: the gains
    and the losses.  The leading 0 is what [where] puts in place of the
    NaN first delta. *)
Definition gains (close : list Q) : list Q :=
  match close with
  | [] => []
  | x :: rest =>
      0 :: map (fun d => if negb (Qle_bool d 0) then d else 0) (deltas_from x rest)
  end.

Definition losses (close : list Q) : list Q :=
  match close with
  | [] => []
  | x :: rest =>
      - 0 :: map (fun d => if negb (Qle_bool 0 d) then - d else - 0) (deltas_from x rest)
  end.

(** A perfectly flat series; a series with no down days and no flat
    days. *)
Definition flat (close : list Q) : Prop :=
  forall i, (S i < length close)%nat -> nth (S i) close 0 == nth i close 0.

Definition strictly_increasing (close : list Q) : Prop :=
  forall i, (S i < length close)%nat -> nth i close 0 < nth (S i) close 0.

(** Entry [(a, b)] of a matrix given by rows. *)
Definition entry (rows : list (list cval)) (a b : nat) : option cval :=
  match nth_error rows a with
  | Some r => nth_error r b
  | None => None
  end.

(** The observations of a close series take two different values / are
    all equal. *)
Definition varies (l : list Q) : Prop :=
  exists p q, In p l /\ In q l /\ ~ p == q.
Definition constant_obs (l : list Q) : Prop :=
  forall p q, In p l -> In q l -> p == q.

(** ** Example panels *)

(** The store and frame of the scenario: one ticker, the ten closes. *)
Definition scenario_frame : frame := [(L2 "T" "Close", map Fin scenario_closes)].
Definition scenario_store : heap := {[ 1%positive := PriceFrame scenario_frame ]}.

(** The three-day stores of the counterexamples. *)
Definition flat_frame : frame := [(L2 "T" "Close", map Fin [5; 5; 5])].
Definition flat_store : heap := {[ 1%positive := PriceFrame flat_frame ]}.
Definition updown_frame : frame := [(L2 "T" "Close", map Fin [1; 2; 1])].
Definition updown_store : heap := {[ 1%positive := PriceFrame updown_frame ]}.

Definition short_frame : frame := [(L2 "T" "Close", map Fin [1; 2])].
Definition short_store : heap := {[ 1%positive := PriceFrame short_frame ]}.

Definition zero_start_frame : frame := [(L2 "T" "Adj Close", map Fin [0; 5])].
Definition zero_start_store : heap := {[ 1%positive := PriceFrame zero_start_frame ]}.

Definition two_ticker_frame : frame :=
  [(L2 "A" "Adj Close", map Fin [2; 3]); (L2 "A" "Close", map Fin [2; 3]);
   (L2 "B" "Adj Close", map Fin [50; 40]); (L2 "B" "Close", map Fin [50; 40])].
Definition two_ticker_store : heap := {[ 1%positive := PriceFrame two_ticker_frame ]}.

Definition one_ticker_frame : frame := [(L2 "T" "Close", map Fin [1; 2; 3])].
Definition one_ticker_store : heap := {[ 1%positive := PriceFrame one_ticker_frame ]}.

Definition constant_ticker_frame : frame :=
  [(L2 "A" "Close", map Fin [1; 1]); (L2 "B" "Close", map Fin [1; 2])].
Definition constant_ticker_store : heap :=
  {[ 1%positive := PriceFrame constant_ticker_frame ]}.

Definition twin_frame : frame :=
  [(L2 "A" "Close", map Fin [1; 2; 4]); (L2 "B" "Close", map Fin [1; 2; 4])].
Definition twin_store : heap := {[ 1%positive := PriceFrame twin_frame ]}.

Definition mixed_frame : frame :=
  [(L2 "A" "Close", map Fin [1; 2; 4]); (L2 "B" "Close", map Fin [3; 1; 2])].
Definition mixed_store : heap := {[ 1%positive := PriceFrame mixed_frame ]}.

(** ** Further notions used in the statements *)

(** The field part of a column label. *)
Definition field_of (l : label) : string :=
  match l with L1 x => x | L2 _ x => x end.

(** The two indicator calls chained as [main] chains them (moving averages
    first, RSI on the result), and chained the other way round. *)
Definition ma_then_rsi (data : loc) (ticker : string) (windows : list Z)
           (rsi_window : Z) : M loc :=
  do d1 <- calculate_moving_averages data ticker windows;
  calculate_rsi d1 ticker rsi_window.

Definition rsi_then_ma (data : loc) (ticker : string) (windows : list Z)
           (rsi_window : Z) : M loc :=
  do d1 <- calculate_rsi data ticker rsi_window;
  calculate_moving_averages d1 ticker windows.

(** The windows that the rolling primitive takes: from 0 (a negative
    window is a ValueError) to the largest signed 64-bit integer. *)
Definition accepted_window (w : Z) : Prop := (0 <= w < 2 ^ 63)%Z.

(** ** MODULE 1: DATA FETCHER *)

Module Fetcher.

(** [df.empty]: no columns, or no rows.  The rows are read off the first
    column, as all columns of a frame share the row index. *)
Definition frame_empty (f : frame) : bool :=
  match f with
  | [] => true
  | (_, col) :: _ => (length col =? 0)%nat
  end.

(** Missing values: NaN (an infinity is a value). *)
Definition is_na (x : fval) : bool :=
  match x with NaN => true | _ => false end.

(** [df.dropna(axis=1, how='all')]: the columns with at least one value
    that is not missing, in their order. *)
Fixpoint dropna_all_columns (f : frame) : frame :=
  match f with
  | [] => []
  | (k, col) :: rest =>
      if existsb (fun x => negb (is_na x)) col
      then (k, col) :: dropna_all_columns rest
      else dropna_all_columns rest
  end.

(** What [fetch_stock_data] prints. *)
Inductive message (E : Type) : Type :=
| MsgFetching (tickers : list string) (start_date end_date : string)
| MsgNoData
| MsgAllInvalid
| MsgFetched
| MsgUnexpected (e : E).
Arguments MsgFetching {E}.
Arguments MsgNoData {E}.
Arguments MsgAllInvalid {E}.
Arguments MsgFetched {E}.
Arguments MsgUnexpected {E}.

Section Download.

(** [yf.download(tickers, start=..., end=..., group_by='ticker',
    progress=False)] is the outside world: it raises an exception of some
    type [E] or returns a frame. *)
Context {E : Type}.
Variable download : list string -> string -> string -> E + frame.

(** The returned frame ([pd.DataFrame()] is the frame without columns) and
    the lines printed. *)
Definition fetch_stock_data (tickers : list string) (start_date end_date : string)
  : frame * list (message E) :=
  let announce := MsgFetching tickers start_date end_date in
  match download tickers start_date end_date with
  | inr stock_data =>
      if frame_empty stock_data then ([], [announce; MsgNoData])
      else
        let stock_data := dropna_all_columns stock_data in
        if frame_empty stock_data then ([], [announce; MsgAllInvalid])
        else (stock_data, [announce; MsgFetched])
  | inl e => ([], [announce; MsgUnexpected e])
  end.

End Download.

End Fetcher.
Export Fetcher.

(** All columns have as many rows as the first one. *)
Definition aligned (f : frame) : Prop :=
  match f with
  | [] => True
  | (_, col) :: _ => Forall (fun c => length (snd c) = length col) f
  end.

(** ** MODULE 3: [plot_full_analysis], and the single-ticker branch of MODULE 4 *)

Module FullAnalysis.

(** What [plot_full_analysis] hands to matplotlib: the close line and the
    SMA lines of the first panel (each line with its legend label), the
    volume bars of the second, the RSI line of the third.  The reference
    lines at 70 and 30, titles and styles are constants of the source. *)
Record figure : Type := {
  price_line : series;
  sma_lines : list (string * series);
  volume_bars : series;
  rsi_line : series
}.

(** [f'SMA {window}'] *)
Definition sma_legend (window : Z) : string :=
  String.append "SMA " (NilZero.string_of_int (Z.to_int window)).

(** The loop over [ma_windows] of the first panel. *)
Fixpoint plot_sma_lines (data : loc) (ticker : string) (ma_windows : list Z)
  : M (list (string * series)) :=
  match ma_windows with
  | [] => ret []
  | window :: rest =>
      do sma <- getcol data (L2 ticker (sma_name window));
      do lines <- plot_sma_lines data ticker rest;
      ret ((sma_legend window, sma) :: lines)
  end.

Definition plot_full_analysis (data : loc) (ticker : string) (ma_windows : list Z)
  : M figure :=
  do close <- getcol data (L2 ticker "Close");
  do smas <- plot_sma_lines data ticker ma_windows;
  do volume <- getcol data (L2 ticker "Volume");
  do rsi <- getcol data (L2 ticker "RSI");
  ret {| price_line := close; sma_lines := smas;
         volume_bars := volume; rsi_line := rsi |}.

(** [stock_data.copy()]: a new object with the same columns. *)
Definition copy (d : loc) : M loc :=
  do f <- read d;
  alloc (PriceFrame f).

(** The [else] branch of the full analysis in [main] (one ticker). *)
Definition main_full_single (stock_data : loc) (ticker : string)
           (ma_windows : list Z) : M figure :=
  do c <- copy stock_data;
  do data_with_ma <- calculate_moving_averages c ticker ma_windows;
  do data_with_rsi <- calculate_rsi_default data_with_ma ticker;
  plot_full_analysis data_with_rsi ticker ma_windows.

End FullAnalysis.
Export FullAnalysis.

(** ** Further example panels *)

(** An adjusted-close column without rows. *)
Definition no_rows_frame : frame := [(L2 "T" "Adj Close", [])].
Definition no_rows_store : heap := {[ 1%positive := PriceFrame no_rows_frame ]}.

(** A frame with plain column names, as [calculate_performance] returns
    it, and the frame without columns that [fetch_stock_data] returns when
    it has nothing. *)
Definition percent_frame : frame := [(L1 "T", map Fin [100; 150])].
Definition percent_store : heap := {[ 1%positive := PriceFrame percent_frame ]}.
Definition nothing_store : heap := {[ 1%positive := PriceFrame [] ]}.

(** A download of two tickers of which the second has no data at all. *)
Definition gappy_frame : frame :=
  [(L2 "A" "Close", [Fin 1; NaN]); (L2 "B" "Close", [NaN; NaN])].
Definition gappy_download (tickers : list string) (start_date end_date : string)
  : exn + frame := inr gappy_frame.
(** A download that fails. *)
Definition failing_download (tickers : list string) (start_date end_date : string)
  : exn + frame := inl ValueError.

(** One ticker with closes and volumes. *)
Definition traded_frame : frame :=
  [(L2 "T" "Close", map Fin [1; 2; 1]); (L2 "T" "Volume", map Fin [100; 120; 90])].
Definition traded_store : heap := {[ 1%positive := PriceFrame traded_frame ]}.

(** Two tickers on a single date. *)
Definition one_day_frame : frame :=
  [(L2 "A" "Close", [Fin 3]); (L2 "B" "Close", [Fin 7])].
Definition one_day_store : heap := {[ 1%positive := PriceFrame one_day_frame ]}.

(** ** MODULE 4: the argument processing of [main] *)

(** Command-line text is modelled as a string of ASCII characters; on such
    text the string methods below are the Python ones. *)
Module CommandLine.

(** [s.split(sep)] for a one-character separator: the pieces between the
    separators, at least one piece. *)
Fixpoint split_on (sep : ascii) (s : string) : list string :=
  match s with
  | EmptyString => [EmptyString]
  | String c rest =>
      let pieces := split_on sep rest in
      if Ascii.eqb c sep then EmptyString :: pieces
      else match pieces with
           | p :: ps => String c p :: ps
           | [] => [String c EmptyString]
           end
  end.

(** [c.isspace()] on ASCII: tab, line feed, vertical tab, form feed,
    carriage return, the separators 28 to 31, and the space. *)
Definition is_space (c : ascii) : bool :=
  let n := nat_of_ascii c in
  ((9 <=? n) && (n <=? 13) || (28 <=? n) && (n <=? 32))%nat.

Definition is_empty (s : string) : bool :=
  match s with EmptyString => true | _ => false end.

Fixpoint lstrip (s : string) : string :=
  match s with
  | EmptyString => EmptyString
  | String c rest => if is_space c then lstrip rest else s
  end.

Fixpoint rstrip (s : string) : string :=
  match s with
  | EmptyString => EmptyString
  | String c rest =>
      let rest' := rstrip rest in
      if is_space c && is_empty rest' then EmptyString else String c rest'
  end.

(** [s.strip()] *)
Definition strip (s : string) : string := rstrip (lstrip s).

(** [s.upper()] on ASCII: the letters a to z are raised. *)
Definition upper_char (c : ascii) : ascii :=
  let n := nat_of_ascii c in
  if ((97 <=? n) && (n <=? 122))%nat then ascii_of_nat (n - 32) else c.

Fixpoint upper (s : string) : string :=
  match s with
  | EmptyString => EmptyString
  | String c rest => String (upper_char c) (upper rest)
  end.

(** The digits of a decimal literal, in which single underscores may
    stand between digits. *)
Fixpoint py_digits (after_digit : bool) (s : string) : option Decimal.uint :=
  match s with
  | EmptyString => if after_digit then Some Decimal.Nil else None
  | String c rest =>
      if Ascii.eqb c "_"
      then (if after_digit then py_digits false rest else None)
      else uint_of_char c (py_digits true rest)
  end.

(** The decimal digits of a text. *)
Definition is_digit (c : ascii) : bool :=
  let n := nat_of_ascii c in
  ((48 <=? n) && (n <=? 57))%nat.

Fixpoint count_digits (s : string) : nat :=
  match s with
  | EmptyString => 0
  | String c rest => (if is_digit c then 1 else 0) + count_digits rest
  end.

(** [sys.get_int_max_str_digits()], as the interpreter sets it. *)
Definition max_str_digits : nat := 4300.

(** [int(s)]: surrounding whitespace is ignored, then an optional sign and
    decimal digits; anything else is a ValueError, and so is a literal of
    more than [max_str_digits] digits. *)
Definition py_int (s : string) : result Z :=
  let text := strip s in
  let parsed :=
    match text with
    | EmptyString => None
    | String c digits =>
        if Ascii.eqb c "+"
        then option_map (fun d => Z.of_int (Decimal.Pos d)) (py_digits false digits)
        else if Ascii.eqb c "-"
        then option_map (fun d => Z.of_int (Decimal.Neg d)) (py_digits false digits)
        else option_map (fun d => Z.of_int (Decimal.Pos d))
                        (py_digits false (String c digits))
    end in
  match parsed with
  | Some z =>
      if (max_str_digits <? count_digits text)%nat then Err ValueError else Ok z
  | None => Err ValueError
  end.

(** [[ticker.strip().upper() for ticker in args.tickers.split(',')]] *)
Definition parse_tickers (arg : string) : list string :=
  map (fun ticker => upper (strip ticker)) (split_on "," arg).

(** A list comprehension whose body can raise: the first failure ends
    it. *)
Fixpoint comprehension {A B} (body : A -> result B) (l : list A) : result (list B) :=
  match l with
  | [] => Ok []
  | x :: rest =>
      rbind (body x) (fun y => rbind (comprehension body rest) (fun ys => Ok (y :: ys)))
  end.

(** [[int(w.strip()) for w in args.ma_windows.split(',')]] *)
Definition parse_ma_windows (arg : string) : result (list Z) :=
  comprehension (fun w => py_int (strip w)) (split_on "," arg).

End CommandLine.
Export CommandLine.

(** [str(n)] for an integer, and [sep.join(pieces)]. *)
Definition py_str (n : Z) : string := NilZero.string_of_int (Z.to_int n).

Fixpoint join (sep : ascii) (pieces : list string) : string :=
  match pieces with
  | [] => EmptyString
  | [p] => p
  | p :: rest => String.append p (String sep (join sep rest))
  end.

(** Text of ASCII characters only. *)
Fixpoint ascii_text (s : string) : Prop :=
  match s with
  | EmptyString => True
  | String c rest => (nat_of_ascii c < 128)%nat /\ ascii_text rest
  end.

(** The number of occurrences of a character. *)
Fixpoint count_char (c : ascii) (s : string) : nat :=
  match s with
  | EmptyString => 0
  | String a rest => (if Ascii.eqb a c then 1 else 0) + count_char c rest
  end.

(** A string that does not begin with whitespace. *)
Definition starts_clean (s : string) : Prop :=
  match s with
  | EmptyString => True
  | String c _ => is_space c = false
  end.

(** Every character of a string has a property. *)
Fixpoint all_chars (P : ascii -> Prop) (s : string) : Prop :=
  match s with
  | EmptyString => True
  | String c rest => P c /\ all_chars P rest
  end.

(** A character of a printed integer: not whitespace, comma, underscore or
    plus sign. *)
Definition plain_char (c : ascii) : Prop :=
  is_space c = false /\ Ascii.eqb c "," = false /\ Ascii.eqb c "_" = false
  /\ Ascii.eqb c "+" = false.

(** * Properties *)

(** ** Rational sums and list slices *)

Lemma Qsum_nonneg (l : list Q) : Forall (fun q => 0 <= q) l -> 0 <= Qsum l.
Proof. induction 1; simpl; lra. Qed.

Lemma Qsum_constant (l : list Q) (c : Q) :
  (forall v, In v l -> v == c) ->
  Qsum l == inject_Z (Z.of_nat (length l)) * c.
Proof.
  induction l as [|x l IH]; intros Hc.
  - simpl. ring.
  - cbn [Qsum fold_right length]. fold (Qsum l).
    rewrite IH by (intros; apply Hc; now right).
    rewrite (Hc x) by now left.
    rewrite Nat2Z.inj_succ. unfold Z.succ. rewrite inject_Z_plus. ring.
Qed.

Lemma Qsum_pos (l : list Q) :
  (forall v, In v l -> 0 <= v) -> (exists v, In v l /\ 0 < v) -> 0 < Qsum l.
Proof.
  induction l as [|x l IH]; intros Hnn (v & Hv & Hpos); [contradiction|].
  cbn [Qsum fold_right]. fold (Qsum l).
  assert (0 <= x) by (apply Hnn; now left).
  assert (0 <= Qsum l).
  { apply Qsum_nonneg, Forall_forall. intros u Hu. apply Hnn. now right. }
  destruct Hv as [-> | Hv]; [lra|].
  assert (0 < Qsum l); [|lra].
  apply IH; [intros u Hu; apply Hnn; now right | eauto].
Qed.

Lemma Qsquare_nonneg (u : Q) : 0 <= u * u.
Proof. nra. Qed.

Lemma Qsquare_zero (u : Q) : u * u <= 0 -> u == 0.
Proof.
  intros Hu. destruct (Qeq_dec u 0) as [|Hn]; [assumption|]. exfalso.
  assert (0 < u * u); [|lra].
  destruct (Qlt_le_dec u 0).
  - setoid_replace (u * u) with ((- u) * (- u)) using relation Qeq by ring.
    apply Qmult_lt_0_compat; lra.
  - apply Qmult_lt_0_compat; lra.
Qed.

Lemma Qmult_comm_eq (x y : Q) : x * y = y * x.
Proof.
  destruct x as [a b], y as [c e]. unfold Qmult. cbn [Qnum Qden].
  f_equal; [apply Z.mul_comm | apply Pos.mul_comm].
Qed.

Lemma map_constant {A B} (g : A -> B) (c : B) (l : list A) :
  (forall a, g a = c) -> map g l = repeat c (length l).
Proof. intros Hg. induction l; simpl; [|rewrite Hg, IHl]; reflexivity. Qed.

(** A slice taken with [skipn]/[firstn] is the slice read by index. *)
Lemma skipn_firstn_nth {A} (d : A) (l : list A) (a n : nat) :
  (a + n <= length l)%nat ->
  skipn a (firstn (a + n) l) = map (fun k => nth k l d) (seq a n).
Proof.
  revert l n. induction a as [|a IH]; intros l n Hle.
  - rewrite skipn_O, Nat.add_0_l.
    revert l Hle. induction n as [|n IHn]; intros l Hle.
    + reflexivity.
    + destruct l as [|x l]; simpl in Hle; [lia|].
      simpl. f_equal. rewrite IHn by lia.
      rewrite <- seq_shift, map_map. reflexivity.
  - destruct l as [|x l]; simpl in Hle; [lia|].
    simpl. rewrite IH by lia.
    rewrite <- seq_shift, map_map. reflexivity.
Qed.

(** ** Running the store operations *)

Section StoreRun.
Variables (h : heap) (d : loc) (f : frame).
Hypothesis Hd : h !! d = Some (PriceFrame f).

Lemma run_read : read d h = (Ok f, h).
Proof using Hd. unfold read. now rewrite Hd. Qed.

Lemma run_getcol key : getcol d key h = (getitem f key, h).
Proof using Hd. unfold getcol, bind, lift. now rewrite run_read. Qed.

Lemma run_setcol key col :
  setcol d key col h = (Ok tt, <[d := PriceFrame (setitem f key col)]> h).
Proof using Hd. unfold setcol, bind. now rewrite run_read. Qed.
End StoreRun.

(** ** Frames: reading after writing *)

Lemma label_eqb_eq a b : label_eqb a b = true <-> a = b.
Proof.
  destruct a, b; simpl; try (split; [discriminate | congruence]).
  - rewrite String.eqb_eq. split; congruence.
  - rewrite andb_true_iff, !String.eqb_eq. split; [intros []|intros [=]]; subst; auto.
Qed.

Lemma label_eqb_refl a : label_eqb a a = true.
Proof. now apply label_eqb_eq. Qed.

Lemma label_eqb_neq a b : a <> b -> label_eqb a b = false.
Proof.
  intros Hn. destruct (label_eqb a b) eqn:E; auto.
  apply label_eqb_eq in E. contradiction.
Qed.

Lemma getitem_setitem_eq f key col : getitem (setitem f key col) key = Ok col.
Proof.
  induction f as [|[k c] rest IH]; simpl.
  - now rewrite label_eqb_refl.
  - destruct (label_eqb k key) eqn:E; simpl; now rewrite ?E.
Qed.

Lemma getitem_setitem_ne f key key' col :
  key <> key' -> getitem (setitem f key col) key' = getitem f key'.
Proof.
  intros Hn. induction f as [|[k c] rest IH]; simpl.
  - now rewrite label_eqb_neq.
  - destruct (label_eqb k key) eqn:E; simpl.
    + apply label_eqb_eq in E. subst k. now rewrite label_eqb_neq.
    + now rewrite IH.
Qed.

(** ** Rolling means *)

Lemma finite_obs_Fin (l : list Q) : finite_obs (map Fin l) = l.
Proof. induction l; simpl; congruence. Qed.

Lemma finite_obs_length (xs : series) : (length (finite_obs xs) <= length xs)%nat.
Proof. induction xs as [|[] xs IH]; simpl; lia. Qed.

Lemma window_length w i (xs : series) :
  (length (window w i xs) <= S i)%nat.
Proof.
  unfold window. rewrite length_skipn, length_firstn. lia.
Qed.

Lemma rolling_mean_ok (w : Z) (xs : series) :
  (0 <= w)%Z ->
  rolling_mean w xs = Ok (map (mean_at (Z.to_nat w) xs) (seq 0 (length xs))).
Proof.
  intros Hw. unfold rolling_mean.
  destruct (Z.ltb_spec w 0); [lia | reflexivity].
Qed.

Lemma rolling_mean_length (w : Z) (xs out : series) :
  rolling_mean w xs = Ok out -> length out = length xs.
Proof.
  unfold rolling_mean. destruct (w <? 0)%Z; [discriminate|].
  intros [= <-]. now rewrite length_map, length_seq.
Qed.

Lemma rolling_mean_nth (w : Z) (xs out : series) (i : nat) :
  rolling_mean w xs = Ok out -> (i < length xs)%nat ->
  nth_error out i = Some (mean_at (Z.to_nat w) xs i).
Proof.
  unfold rolling_mean. destruct (w <? 0)%Z; [discriminate|].
  intros [= <-] Hi.
  rewrite nth_error_map, nth_error_seq.
  destruct (Nat.ltb_spec i (length xs)); [reflexivity | lia].
Qed.

(** Before the window is filled the mean is the missing-value marker. *)
Lemma mean_at_unfilled (w : nat) (xs : series) (i : nat) :
  (S i < w)%nat -> mean_at w xs i = NaN.
Proof.
  intros Hi. unfold mean_at.
  pose proof (finite_obs_length (window w i xs)).
  pose proof (window_length w i xs).
  destruct (Nat.leb_spec w (length (finite_obs (window w i xs)))); [lia|].
  reflexivity.
Qed.

(** On finite data a filled window averages exactly its [w] entries. *)
Lemma mean_at_filled (w : nat) (close : list Q) (i : nat) :
  (1 <= w)%nat -> (w <= S i)%nat -> (i < length close)%nat ->
  mean_at w (map Fin close) i = Fin (slice_mean close i w).
Proof.
  intros Hw Hwi Hi. unfold mean_at, window, slice_mean.
  rewrite firstn_map, skipn_map, finite_obs_Fin.
  assert (E : skipn (S i - w) (firstn (S i) close)
              = map (fun k => nth k close 0) (seq (S i - w) w)).
  { rewrite <- (skipn_firstn_nth 0) by lia. do 2 f_equal. lia. }
  rewrite E, length_map, length_seq.
  destruct (Nat.leb_spec w w); [|lia].
  destruct (Nat.ltb_spec 0 w); [|lia].
  reflexivity.
Qed.

(** ** Simple moving averages *)

(** One turn of the loop of [calculate_moving_averages]. *)
Lemma for_windows_step (h : heap) (d : loc) (f : frame) (ticker : string)
      (w : Z) (ws : list Z) (close sma : series) :
  h !! d = Some (PriceFrame f) ->
  getitem f (L2 ticker "Close") = Ok close ->
  rolling_mean w close = Ok sma ->
  for_windows d ticker (w :: ws) h
  = for_windows d ticker ws
      (<[d := PriceFrame (setitem f (L2 ticker (sma_name w)) sma)]> h).
Proof.
  intros Hd Hc Hr. cbn [for_windows]. unfold bind at 1.
  rewrite (run_getcol h d f Hd), Hc.
  unfold bind at 1, lift. rewrite Hr.
  unfold bind at 1. rewrite (run_setcol h d f Hd). reflexivity.
Qed.

Lemma calculate_moving_averages_one (h : heap) (d : loc) (f : frame)
      (ticker : string) (w : Z) (close sma : series) :
  h !! d = Some (PriceFrame f) ->
  getitem f (L2 ticker "Close") = Ok close ->
  rolling_mean w close = Ok sma ->
  calculate_moving_averages d ticker [w] h
  = (Ok d, <[d := PriceFrame (setitem f (L2 ticker (sma_name w)) sma)]> h).
Proof.
  intros Hd Hc Hr. unfold calculate_moving_averages, bind.
  rewrite (for_windows_step h d f ticker w [] close sma Hd Hc Hr).
  reflexivity.
Qed.

(** C1.  For a finite close series and a window [1 <= w <= length], the
    SMA column that [calculate_moving_averages] stores has the length of
    the close series, is NaN (undefined) at every position [i < w-1] and is
    the arithmetic mean of [close[i-w+1 .. i]] at every position
    [i >= w-1]; on the closes [10,11,12,11,10,11,12,13,14,15] with [w = 3]
    positions 0 and 1 are NaN and position 2 is 11. *)
Theorem sma_is_trailing_mean :
  (forall (h : heap) (data : loc) (f : frame) (ticker : string)
          (close : list Q) (w : nat),
      h !! data = Some (PriceFrame f) ->
      getitem f (L2 ticker "Close") = Ok (map Fin close) ->
      (1 <= w <= length close)%nat ->
      exists (f' : frame) (sma : series),
        calculate_moving_averages data ticker [Z.of_nat w] h
        = (Ok data, <[data := PriceFrame f']> h)
        /\ getitem f' (L2 ticker (sma_name (Z.of_nat w))) = Ok sma
        /\ length sma = length close
        /\ (forall i, (i < w - 1)%nat -> nth_error sma i = Some NaN)
        /\ (forall i, (w - 1 <= i < length close)%nat ->
                      nth_error sma i = Some (Fin (slice_mean close i w))))
  /\ (exists (f' : frame) (sma : series) (m : Q),
        calculate_moving_averages 1%positive "T" [3%Z] scenario_store
        = (Ok 1%positive, <[1%positive := PriceFrame f']> scenario_store)
        /\ getitem f' (L2 "T" "SMA_3") = Ok sma
        /\ nth_error sma 0 = Some NaN
        /\ nth_error sma 1 = Some NaN
        /\ nth_error sma 2 = Some (Fin m) /\ m == 11).
Proof.
  split.
  - intros h data f ticker close w Hd Hc Hw.
    assert (Hr := rolling_mean_ok (Z.of_nat w) (map Fin close) ltac:(lia)).
    set (sma := map (mean_at _ _) _) in Hr.
    exists (setitem f (L2 ticker (sma_name (Z.of_nat w))) sma), sma.
    split; [now apply (calculate_moving_averages_one h data f ticker _ (map Fin close))|].
    split; [apply getitem_setitem_eq|].
    assert (Hlen : length sma = length close).
    { rewrite (rolling_mean_length _ _ _ Hr). apply length_map. }
    split; [exact Hlen|]. split.
    + intros i Hi.
      rewrite (rolling_mean_nth _ _ _ i Hr) by (rewrite length_map; lia).
      rewrite Nat2Z.id. f_equal. apply mean_at_unfilled. lia.
    + intros i Hi.
      rewrite (rolling_mean_nth _ _ _ i Hr) by (rewrite length_map; lia).
      rewrite Nat2Z.id. f_equal. apply mean_at_filled; lia.
  - eexists _, _, _.
    split; [apply (calculate_moving_averages_one _ _ scenario_frame "T" 3 (map Fin scenario_closes)); reflexivity|].
    split; [apply getitem_setitem_eq|].
    repeat split; try reflexivity.
Qed.

(** The scenario, obtained from the general statement. *)
Lemma sma_is_trailing_mean_witness :
  exists (f' : frame) (sma : series),
    calculate_moving_averages 1%positive "T" [3%Z] scenario_store
    = (Ok 1%positive, <[1%positive := PriceFrame f']> scenario_store)
    /\ getitem f' (L2 "T" "SMA_3") = Ok sma
    /\ length sma = 10%nat
    /\ nth_error sma 1 = Some NaN
    /\ nth_error sma 2 = Some (Fin (slice_mean scenario_closes 2 3)).
Proof.
  destruct (proj1 sma_is_trailing_mean scenario_store 1%positive scenario_frame
              "T"%string scenario_closes 3%nat)
    as (f' & sma & Hrun & Hget & Hlen & Hlo & Hhi).
  - reflexivity.
  - reflexivity.
  - simpl. lia.
  - exists f', sma. split; [exact Hrun|]. split; [exact Hget|].
    split; [exact Hlen|]. split; [apply Hlo; simpl; lia | apply Hhi; simpl; lia].
Defined.

(** ** Relative strength index *)

Lemma zip_div_map {A} (g l : A -> fval) (idx : list A) :
  zip_div (map g idx) (map l idx) = map (fun i => fdiv (g i) (l i)) idx.
Proof. induction idx; simpl; congruence. Qed.

Lemma diff_from_length p (xs : series) : length (diff_from p xs) = length xs.
Proof. revert p. induction xs; intros; simpl; auto. Qed.

Lemma diff1_length (xs : series) : length (diff1 xs) = length xs.
Proof. destruct xs; simpl; auto using diff_from_length. Qed.

Lemma gain_input_length (close : series) : length (gain_input close) = length close.
Proof. unfold gain_input, where_. now rewrite length_map, diff1_length. Qed.

Lemma loss_input_length (close : series) : length (loss_input close) = length close.
Proof. unfold loss_input, neg, where_. now rewrite !length_map, diff1_length. Qed.

Lemma calculate_rsi_run (h : heap) (d : loc) (f : frame) (ticker : string)
      (w : Z) (close : series) :
  h !! d = Some (PriceFrame f) ->
  getitem f (L2 ticker "Close") = Ok close ->
  (0 <= w)%Z ->
  calculate_rsi d ticker w h
  = (Ok d, <[d := PriceFrame (setitem f (L2 ticker "RSI")
                                (rsi_column (Z.to_nat w) close))]> h).
Proof.
  intros Hd Hc Hw. unfold calculate_rsi.
  unfold bind at 1. rewrite (run_getcol h d f Hd), Hc.
  unfold bind at 1, lift. rewrite (rolling_mean_ok w _ Hw).
  unfold bind at 1. rewrite (rolling_mean_ok w _ Hw).
  unfold bind at 1. rewrite (run_setcol h d f Hd).
  unfold ret. do 4 f_equal.
  rewrite gain_input_length, loss_input_length, zip_div_map, map_map.
  reflexivity.
Qed.

Lemma rsi_column_length w close : length (rsi_column w close) = length close.
Proof. unfold rsi_column. now rewrite length_map, length_seq. Qed.

Lemma rsi_column_nth w close i :
  (i < length close)%nat ->
  nth_error (rsi_column w close) i
  = Some (rsi_of_rs (fdiv (mean_at w (gain_input close) i)
                          (mean_at w (loss_input close) i))).
Proof.
  intros Hi. unfold rsi_column.
  rewrite nth_error_map, nth_error_seq.
  destruct (Nat.ltb_spec i (length close)); [reflexivity | lia].
Qed.

(** The formula on a quotient with divisor 0. *)
Lemma rsi_of_rs_infinite :
  rsi_of_rs PInf =f= Fin 100 /\ rsi_of_rs NInf =f= Fin 100.
Proof. split; reflexivity. Qed.

Lemma rsi_no_loss_some_gain (g l : Q) :
  l == 0 -> 0 < g -> rsi_of_rs (fdiv (Fin g) (Fin l)) =f= Fin 100.
Proof.
  intros Hl Hg. unfold fdiv.
  apply Qeq_bool_iff in Hl. rewrite Hl.
  rewrite (proj1 (Qgt_alt g 0) Hg). unfold rsi_of_rs. cbn [fadd fdiv fsub fneg feq]. lra.
Qed.

Lemma rsi_no_loss_no_gain (g l : Q) :
  l == 0 -> g == 0 -> rsi_of_rs (fdiv (Fin g) (Fin l)) = NaN.
Proof.
  intros Hl Hg. unfold fdiv.
  apply Qeq_bool_iff in Hl. rewrite Hl.
  rewrite (proj1 (Qeq_alt g 0) Hg). reflexivity.
Qed.

(** *** The range of the RSI column *)

Lemma gain_input_nonneg (close : series) : Forall nonneg (gain_input close).
Proof.
  unfold gain_input, where_. apply Forall_map, Forall_forall. intros x _.
  destruct x as [q| | |]; simpl; try lra.
  destruct (Qle_bool q 0) eqn:E; simpl; [lra|].
  destruct (Qlt_le_dec 0 q) as [Hlt|Hle]; [lra|].
  apply Qle_bool_iff in Hle. congruence.
Qed.

Lemma loss_input_nonneg (close : series) : Forall nonneg (loss_input close).
Proof.
  unfold loss_input, neg, where_. rewrite map_map.
  apply Forall_map, Forall_forall. intros x _.
  destruct x as [q| | |]; simpl; try lra.
  destruct (Qle_bool 0 q) eqn:E; simpl; [lra|].
  destruct (Qlt_le_dec q 0) as [Hlt|Hle]; [lra|].
  apply Qle_bool_iff in Hle. congruence.
Qed.

Lemma finite_obs_nonneg (xs : series) :
  Forall nonneg xs -> Forall (fun q => 0 <= q) (finite_obs xs).
Proof.
  induction 1 as [|x xs Hx _ IH]; simpl; [constructor|].
  destruct x; auto.
Qed.

Lemma mean_at_nonneg (w : nat) (xs : series) (i : nat) :
  Forall nonneg xs ->
  mean_at w xs i = NaN \/ exists q, mean_at w xs i = Fin q /\ 0 <= q.
Proof.
  intros Hxs. unfold mean_at.
  destruct (_ && _); [right | now left].
  eexists; split; [reflexivity|].
  apply Qmult_le_0_compat.
  - apply Qsum_nonneg, finite_obs_nonneg.
    unfold window. now apply Forall_drop, Forall_take.
  - apply Qinv_le_0_compat.
    change 0 with (inject_Z 0). rewrite <- Zle_Qle. lia.
Qed.

Lemma rsi_of_rs_range (g l : Q) :
  0 <= g -> 0 <= l ->
  rsi_of_rs (fdiv (Fin g) (Fin l)) = NaN
  \/ exists q, rsi_of_rs (fdiv (Fin g) (Fin l)) = Fin q /\ 0 <= q <= 100.
Proof.
  intros Hg Hl. unfold fdiv.
  destruct (Qeq_bool l 0) eqn:El.
  - destruct (g ?= 0); [now left | |];
      right; eexists; (split; [reflexivity|]); lra.
  - right. apply Qeq_bool_neq in El.
    assert (Hr : 0 <= g / l) by (apply Qle_shift_div_l; lra).
    unfold rsi_of_rs. cbn [fadd]. unfold fdiv.
    destruct (Qeq_bool (1 + g / l) 0) eqn:E1;
      [apply Qeq_bool_iff in E1; lra|].
    eexists; split; [reflexivity|].
    assert (0 <= 100 / (1 + g / l)) by (apply Qle_shift_div_l; lra).
    assert (100 / (1 + g / l) <= 100) by (apply Qle_shift_div_r; lra).
    lra.
Qed.

(** Every entry of the RSI column, for any close column at all. *)
Lemma rsi_entry_range (w : nat) (close : series) (i : nat) :
  let v := rsi_of_rs (fdiv (mean_at w (gain_input close) i)
                           (mean_at w (loss_input close) i)) in
  v = NaN \/ exists q, v = Fin q /\ 0 <= q <= 100.
Proof.
  intros v. subst v.
  destruct (mean_at_nonneg w _ i (gain_input_nonneg close)) as [-> | (g & -> & Hg)];
    [now left|].
  destruct (mean_at_nonneg w _ i (loss_input_nonneg close)) as [-> | (l & -> & Hl)];
    [now left|].
  now apply rsi_of_rs_range.
Qed.

(** *** Finite closes: the gain and loss series in rational terms *)

Lemma diff_from_Fin (p : Q) (close : list Q) :
  diff_from (Fin p) (map Fin close) = map Fin (deltas_from p close).
Proof. revert p. induction close as [|x r IH]; intros p; simpl; [|rewrite IH]; reflexivity. Qed.

Lemma gain_input_Fin (close : list Q) :
  gain_input (map Fin close) = map Fin (gains close).
Proof.
  destruct close as [|x r]; [reflexivity|].
  unfold gain_input, where_, gains. cbn [map diff1].
  rewrite diff_from_Fin, !map_map. cbn [map fgt0]. f_equal.
  apply map_ext. intros d. cbn [fgt0]. now destruct (negb _).
Qed.

Lemma loss_input_Fin (close : list Q) :
  loss_input (map Fin close) = map Fin (losses close).
Proof.
  destruct close as [|x r]; [reflexivity|].
  unfold loss_input, neg, where_, losses. cbn [map diff1].
  rewrite diff_from_Fin, !map_map. cbn [map flt0 fneg]. f_equal.
  apply map_ext. intros d. cbn [flt0]. now destruct (negb _).
Qed.

Lemma deltas_from_length p close : length (deltas_from p close) = length close.
Proof. revert p. induction close; intros; simpl; auto. Qed.

Lemma gains_length close : length (gains close) = length close.
Proof. destruct close; simpl; [|rewrite length_map, deltas_from_length]; reflexivity. Qed.

Lemma losses_length close : length (losses close) = length close.
Proof. destruct close; simpl; [|rewrite length_map, deltas_from_length]; reflexivity. Qed.

(** *** Flat and rising closes *)

Lemma deltas_from_nth (p : Q) (close : list Q) (j : nat) :
  (j < length close)%nat ->
  nth j (deltas_from p close) 0 = nth j close 0 - nth j (p :: close) 0.
Proof.
  revert p j. induction close as [|x r IH]; intros p j Hj; simpl in Hj; [lia|].
  destruct j as [|j]; [reflexivity|].
  cbn [deltas_from nth]. rewrite IH by lia. reflexivity.
Qed.

Lemma gains_nth (close : list Q) (j : nat) :
  (S j < length close)%nat ->
  nth (S j) (gains close) 0
  = (let d := nth (S j) close 0 - nth j close 0 in
     if negb (Qle_bool d 0) then d else 0).
Proof.
  destruct close as [|x r]; simpl length; intros Hj; [lia|].
  unfold gains. cbn [nth].
  set (g := fun d : Q => if negb (Qle_bool d 0) then d else 0).
  rewrite (nth_indep _ 0 (g 0)) by (rewrite length_map, deltas_from_length; lia).
  rewrite map_nth, deltas_from_nth by lia. reflexivity.
Qed.

Lemma losses_nth (close : list Q) (j : nat) :
  (S j < length close)%nat ->
  nth (S j) (losses close) 0
  = (let d := nth (S j) close 0 - nth j close 0 in
     if negb (Qle_bool 0 d) then - d else - 0).
Proof.
  destruct close as [|x r]; simpl length; intros Hj; [lia|].
  unfold losses. cbn [nth].
  set (g := fun d : Q => if negb (Qle_bool 0 d) then - d else - 0).
  rewrite (nth_indep _ 0 (g 0)) by (rewrite length_map, deltas_from_length; lia).
  rewrite map_nth, deltas_from_nth by lia. reflexivity.
Qed.

Lemma gains_nth_0 (close : list Q) : nth 0 (gains close) 0 == 0.
Proof. destruct close; reflexivity. Qed.

Lemma losses_nth_0 (close : list Q) : nth 0 (losses close) 0 == 0.
Proof. destruct close; reflexivity. Qed.

Lemma slice_mean_zero (l : list Q) (i w : nat) :
  (forall k, (S i - w <= k < S i - w + w)%nat -> nth k l 0 == 0) ->
  slice_mean l i w == 0.
Proof.
  intros Hz. unfold slice_mean.
  rewrite (Qsum_constant _ 0).
  - unfold Qdiv. ring.
  - intros v Hv. apply in_map_iff in Hv. destruct Hv as (k & <- & Hk).
    apply in_seq in Hk. apply Hz. lia.
Qed.

Lemma flat_no_gain_no_loss (close : list Q) (k : nat) :
  flat close -> (k < length close)%nat ->
  nth k (gains close) 0 == 0 /\ nth k (losses close) 0 == 0.
Proof.
  intros Hflat Hk. destruct k as [|j].
  - split; [apply gains_nth_0 | apply losses_nth_0].
  - rewrite gains_nth, losses_nth by lia. cbv zeta.
    specialize (Hflat j Hk).
    assert (Hd : nth (S j) close 0 - nth j close 0 == 0) by lra.
    assert (E1 : Qle_bool (nth (S j) close 0 - nth j close 0) 0 = true)
      by (apply Qle_bool_iff; lra).
    assert (E2 : Qle_bool 0 (nth (S j) close 0 - nth j close 0) = true)
      by (apply Qle_bool_iff; lra).
    rewrite E1, E2. split; reflexivity.
Qed.

Lemma rising_gain_no_loss (close : list Q) (j : nat) :
  strictly_increasing close -> (S j < length close)%nat ->
  0 < nth (S j) (gains close) 0 /\ nth (S j) (losses close) 0 == 0.
Proof.
  intros Hup Hj. rewrite gains_nth, losses_nth by lia. cbv zeta.
  specialize (Hup j Hj).
  assert (E1 : Qle_bool (nth (S j) close 0 - nth j close 0) 0 = false).
  { destruct (Qle_bool _ 0) eqn:E; [|reflexivity]. apply Qle_bool_iff in E. lra. }
  assert (E2 : Qle_bool 0 (nth (S j) close 0 - nth j close 0) = true)
    by (apply Qle_bool_iff; lra).
  rewrite E1, E2. split; [simpl; lra | reflexivity].
Qed.

(** A flat close series: NaN at every position, filled window or not. *)
Lemma rsi_flat_series (close : list Q) (w i : nat) :
  flat close -> (1 <= w)%nat -> (w <= S i)%nat -> (i < length close)%nat ->
  nth_error (rsi_column w (map Fin close)) i = Some NaN.
Proof.
  intros Hflat Hw Hwi Hi.
  rewrite rsi_column_nth by (rewrite length_map; lia).
  rewrite gain_input_Fin, loss_input_Fin.
  rewrite !mean_at_filled by (rewrite ?gains_length, ?losses_length; lia).
  f_equal. apply rsi_no_loss_no_gain.
  - apply slice_mean_zero. intros k Hk. apply flat_no_gain_no_loss; [assumption | lia].
  - apply slice_mean_zero. intros k Hk. apply flat_no_gain_no_loss; [assumption | lia].
Qed.

(** A strictly increasing close series: 100 once the window is filled and
    holds at least one delta. *)
Lemma rsi_rising_series (close : list Q) (w i : nat) :
  strictly_increasing close ->
  (1 <= w)%nat -> (w <= S i)%nat -> (1 <= i)%nat -> (i < length close)%nat ->
  exists v, nth_error (rsi_column w (map Fin close)) i = Some v /\ v =f= Fin 100.
Proof.
  intros Hup Hw Hwi Hi1 Hi.
  rewrite rsi_column_nth by (rewrite length_map; lia).
  rewrite gain_input_Fin, loss_input_Fin.
  rewrite !mean_at_filled by (rewrite ?gains_length, ?losses_length; lia).
  eexists; split; [reflexivity|].
  assert (Hk0 : forall k, (k < length close)%nat ->
                          0 <= nth k (gains close) 0 /\ nth k (losses close) 0 == 0).
  { intros [|j] Hj.
    - rewrite gains_nth_0, losses_nth_0. split; [lra | reflexivity].
    - destruct (rising_gain_no_loss close j Hup Hj). split; [lra | assumption]. }
  apply rsi_no_loss_some_gain.
  - apply slice_mean_zero. intros k Hk. apply Hk0. lia.
  - unfold slice_mean. apply Qlt_shift_div_l.
    + change 0 with (inject_Z 0). rewrite <- Zlt_Qlt. lia.
    + rewrite Qmult_0_l. apply Qsum_pos.
      * intros v Hv. apply in_map_iff in Hv. destruct Hv as (k & <- & Hk).
        apply in_seq in Hk. apply Hk0. lia.
      * exists (nth i (gains close) 0). split.
        -- apply in_map_iff. exists i. split; [reflexivity|]. apply in_seq. lia.
        -- destruct i as [|j]; [lia|]. now apply rising_gain_no_loss.
Qed.

(** C2, as it fails: on the flat closes [5,5,5] with window 2 the window
    is filled at position 2, both trailing averages are 0, and the RSI
    there is NaN, not 50. *)
Lemma rsi_flat_is_not_50 :
  mean_at 2 (gain_input (map Fin [5; 5; 5])) 2 =f= Fin 0
  /\ mean_at 2 (loss_input (map Fin [5; 5; 5])) 2 =f= Fin 0
  /\ exists (f' : frame) (rsi : series),
       calculate_rsi 1%positive "T" 2 flat_store
       = (Ok 1%positive, <[1%positive := PriceFrame f']> flat_store)
       /\ getitem f' (L2 "T" "RSI") = Ok rsi
       /\ nth_error rsi 2 = Some NaN
       /\ ~ (NaN =f= Fin 50).
Proof.
  split; [reflexivity|]. split; [reflexivity|].
  eexists _, _.
  split; [apply (calculate_rsi_run _ _ flat_frame "T" 2 (map Fin [5; 5; 5]));
          [reflexivity | reflexivity | lia]|].
  split; [apply getitem_setitem_eq|].
  split; [reflexivity|]. simpl. tauto.
Qed.

(** C2, amended.  Where both trailing averages are defined and the average
    loss is 0, the RSI stored by [calculate_rsi] is exactly 100 when the
    average gain is positive and NaN when the average gain is 0 as well
    (the 0/0 of a flat window).  So, once the window is filled, a strictly
    increasing close series has RSI 100 at every position after the first,
    and a flat close series has RSI NaN. *)
Theorem rsi_without_losses :
  forall (h : heap) (data : loc) (f : frame) (ticker : string)
         (close : series) (w : Z) (i : nat),
    h !! data = Some (PriceFrame f) ->
    getitem f (L2 ticker "Close") = Ok close ->
    (0 <= w)%Z ->
    (i < length close)%nat ->
    exists (f' : frame) (rsi : series),
      calculate_rsi data ticker w h = (Ok data, <[data := PriceFrame f']> h)
      /\ getitem f' (L2 ticker "RSI") = Ok rsi
      /\ (forall g l : Q,
            mean_at (Z.to_nat w) (gain_input close) i = Fin g ->
            mean_at (Z.to_nat w) (loss_input close) i = Fin l ->
            l == 0 ->
            (0 < g -> exists v, nth_error rsi i = Some (Fin v) /\ v == 100)
            /\ (g == 0 -> nth_error rsi i = Some NaN))
      /\ (forall qclose : list Q,
            close = map Fin qclose ->
            (1 <= w)%Z -> (w - 1 <= Z.of_nat i)%Z ->
            (strictly_increasing qclose -> (1 <= i)%nat ->
               exists v, nth_error rsi i = Some (Fin v) /\ v == 100)
            /\ (flat qclose -> nth_error rsi i = Some NaN)).
Proof.
  intros h data f ticker close w i Hd Hc Hw Hi.
  eexists _, _.
  split; [now apply (calculate_rsi_run h data f ticker w close)|].
  split; [apply getitem_setitem_eq|].
  split.
  - intros g l Hg Hl Hl0. rewrite rsi_column_nth, Hg, Hl by exact Hi.
    split; intros Hg0.
    + pose proof (rsi_no_loss_some_gain g l Hl0 Hg0) as H100.
      destruct (rsi_of_rs (fdiv (Fin g) (Fin l))) as [v| | |]; try contradiction.
      now exists v.
    + f_equal. now apply rsi_no_loss_no_gain.
  - intros qclose -> Hw1 Hwi. rewrite length_map in Hi. split.
    + intros Hup Hi1.
      destruct (rsi_rising_series qclose (Z.to_nat w) i Hup) as (x & Hx & H100);
        try lia.
      rewrite Hx. destruct x as [v| | |]; try contradiction. now exists v.
    + intros Hflat. apply rsi_flat_series; auto; lia.
Qed.

(** On the closes [1,2,3] with window 2: at position 2 the average gain is
    1, the average loss is 0 and the RSI is 100. *)
Lemma rsi_without_losses_witness :
  exists (f' : frame) (rsi : series) (v : Q),
    calculate_rsi 1%positive "T" 2
      {[ 1%positive := PriceFrame [(L2 "T" "Close", map Fin [1; 2; 3])] ]}
    = (Ok 1%positive,
       <[1%positive := PriceFrame f']>
         {[ 1%positive := PriceFrame [(L2 "T" "Close", map Fin [1; 2; 3])] ]})
    /\ getitem f' (L2 "T" "RSI") = Ok rsi
    /\ nth_error rsi 2 = Some (Fin v)
    /\ v == 100.
Proof.
  destruct (rsi_without_losses
              {[ 1%positive := PriceFrame [(L2 "T" "Close", map Fin [1; 2; 3])] ]}
              1%positive [(L2 "T" "Close", map Fin [1; 2; 3])] "T"%string
              (map Fin [1; 2; 3]) 2%Z 2%nat)
    as (f' & rsi & Hrun & Hget & Havg & _).
  - reflexivity.
  - reflexivity.
  - lia.
  - simpl. lia.
  - destruct (Havg (2 # 2) (0 # 2)) as [Hpos _]; try reflexivity.
    destruct Hpos as (v & Hv & H100); [reflexivity|].
    exists f', rsi, v. repeat split; assumption.
Defined.

(** C3, as it fails: on the flat closes [5,5,5] with window 2 the rolling
    averages at position 1 are defined (both 0), and the RSI handed back
    at that position is NaN, produced by 0/0. *)
Lemma rsi_returns_nan_on_filled_window :
  (exists g l, mean_at 2 (gain_input (map Fin [5; 5; 5])) 1 = Fin g
               /\ mean_at 2 (loss_input (map Fin [5; 5; 5])) 1 = Fin l)
  /\ exists (f' : frame) (rsi : series),
       calculate_rsi 1%positive "T" 2 flat_store
       = (Ok 1%positive, <[1%positive := PriceFrame f']> flat_store)
       /\ getitem f' (L2 "T" "RSI") = Ok rsi
       /\ nth_error rsi 1 = Some NaN
       /\ In NaN rsi.
Proof.
  split; [eexists _, _; split; reflexivity|].
  eexists _, _.
  split; [apply (calculate_rsi_run _ _ flat_frame "T" 2 (map Fin [5; 5; 5]));
          [reflexivity | reflexivity | lia]|].
  split; [apply getitem_setitem_eq|].
  split; [reflexivity|]. simpl. auto.
Qed.

(** C3, amended.  For every close column and every window that rolling
    accepts, the RSI column has the length of the close column and each of
    its entries is either NaN (the marker of an unfilled window, and also
    the 0/0 of a flat window) or a rational in [0, 100]; no entry is
    infinite. *)
Theorem rsi_entries_nan_or_in_range :
  forall (h : heap) (data : loc) (f : frame) (ticker : string)
         (close : series) (w : Z),
    h !! data = Some (PriceFrame f) ->
    getitem f (L2 ticker "Close") = Ok close ->
    (0 <= w)%Z ->
    exists (f' : frame) (rsi : series),
      calculate_rsi data ticker w h = (Ok data, <[data := PriceFrame f']> h)
      /\ getitem f' (L2 ticker "RSI") = Ok rsi
      /\ length rsi = length close
      /\ forall v, In v rsi -> v = NaN \/ exists q, v = Fin q /\ 0 <= q <= 100.
Proof.
  intros h data f ticker close w Hd Hc Hw.
  eexists _, _.
  split; [now apply (calculate_rsi_run h data f ticker w close)|].
  split; [apply getitem_setitem_eq|].
  split; [apply rsi_column_length|].
  intros v Hv. unfold rsi_column in Hv.
  apply in_map_iff in Hv. destruct Hv as (i & <- & _).
  apply rsi_entry_range.
Qed.

(** On the closes [1,2,1] with window 2 the RSI column is NaN, 100, 50. *)
Lemma rsi_entries_nan_or_in_range_witness :
  exists (f' : frame) (rsi : series),
    calculate_rsi 1%positive "T" 2 updown_store
    = (Ok 1%positive, <[1%positive := PriceFrame f']> updown_store)
    /\ getitem f' (L2 "T" "RSI") = Ok rsi
    /\ length rsi = 3%nat
    /\ forall v, In v rsi -> v = NaN \/ exists q, v = Fin q /\ 0 <= q <= 100.
Proof.
  apply (rsi_entries_nan_or_in_range updown_store 1%positive updown_frame
           "T"%string (map Fin [1; 2; 1]) 2%Z).
  - reflexivity.
  - reflexivity.
  - lia.
Defined.

(** C4, as it fails: on the closes [1,2,1] with window 2, position 1 lies
    strictly before index 2 and its RSI is defined (it is 100). *)
Lemma rsi_defined_before_index_w :
  exists (f' : frame) (rsi : series) (v : Q),
    calculate_rsi 1%positive "T" 2 updown_store
    = (Ok 1%positive, <[1%positive := PriceFrame f']> updown_store)
    /\ getitem f' (L2 "T" "RSI") = Ok rsi
    /\ (1 < 2)%nat
    /\ nth_error rsi 1 = Some (Fin v)
    /\ v == 100.
Proof.
  eexists _, _, _.
  split; [apply (calculate_rsi_run _ _ updown_frame "T" 2 (map Fin [1; 2; 1]));
          [reflexivity | reflexivity | lia]|].
  split; [apply getitem_setitem_eq|].
  split; [lia|]. split; reflexivity.
Qed.

(** C4, amended.  The rolling averages of gain and loss run over the
    trailing [w] positions of the gain and loss series, whose position 0
    holds the 0 that replaces the undefined first delta: every RSI
    position strictly before index [w-1] is NaN, and on finite closes both
    averages are defined from index [w-1] on. *)
Theorem rsi_undefined_before_window :
  forall (h : heap) (data : loc) (f : frame) (ticker : string)
         (close : series) (w : Z),
    h !! data = Some (PriceFrame f) ->
    getitem f (L2 ticker "Close") = Ok close ->
    (0 <= w)%Z ->
    exists (f' : frame) (rsi : series),
      calculate_rsi data ticker w h = (Ok data, <[data := PriceFrame f']> h)
      /\ getitem f' (L2 ticker "RSI") = Ok rsi
      /\ (forall i, (i < length close)%nat -> (Z.of_nat i < w - 1)%Z ->
                    nth_error rsi i = Some NaN)
      /\ (forall (qclose : list Q) (i : nat),
             close = map Fin qclose ->
             (1 <= w)%Z -> (w - 1 <= Z.of_nat i)%Z -> (i < length close)%nat ->
             exists g l,
               mean_at (Z.to_nat w) (gain_input close) i = Fin g
               /\ mean_at (Z.to_nat w) (loss_input close) i = Fin l).
Proof.
  intros h data f ticker close w Hd Hc Hw.
  eexists _, _.
  split; [now apply (calculate_rsi_run h data f ticker w close)|].
  split; [apply getitem_setitem_eq|].
  split.
  - intros i Hi Hlt. rewrite rsi_column_nth by exact Hi.
    rewrite (mean_at_unfilled _ (gain_input close)) by lia.
    reflexivity.
  - intros qclose i -> Hw1 Hwi Hi. rewrite length_map in Hi.
    rewrite gain_input_Fin, loss_input_Fin.
    eexists _, _. split.
    + apply mean_at_filled; rewrite ?gains_length; lia.
    + apply mean_at_filled; rewrite ?losses_length; lia.
Qed.

(** On the closes [1,2,1] with window 3, positions 0 and 1 are NaN. *)
Lemma rsi_undefined_before_window_witness :
  exists (f' : frame) (rsi : series),
    calculate_rsi 1%positive "T" 3 updown_store
    = (Ok 1%positive, <[1%positive := PriceFrame f']> updown_store)
    /\ getitem f' (L2 "T" "RSI") = Ok rsi
    /\ nth_error rsi 0 = Some NaN
    /\ nth_error rsi 1 = Some NaN.
Proof.
  destruct (rsi_undefined_before_window updown_store 1%positive updown_frame
              "T"%string (map Fin [1; 2; 1]) 3%Z)
    as (f' & rsi & Hrun & Hget & Hlo & _).
  - reflexivity.
  - reflexivity.
  - lia.
  - exists f', rsi. split; [exact Hrun|]. split; [exact Hget|].
    split; apply Hlo; simpl; lia.
Defined.

(** ** Column names *)

Lemma sma_name_not_close (w : Z) : sma_name w <> "Close"%string.
Proof. unfold sma_name. simpl. discriminate. Qed.

Lemma to_int_not_nil (z : Z) :
  Z.to_int z <> Decimal.Pos Decimal.Nil /\ Z.to_int z <> Decimal.Neg Decimal.Nil.
Proof.
  destruct z as [|p|p]; simpl; split; try discriminate;
    intros [= E]; now apply DecimalPos.Unsigned.to_uint_nonnil in E.
Qed.

(** Different windows get different SMA columns. *)
Lemma sma_name_inj (w w' : Z) : sma_name w = sma_name w' -> w = w'.
Proof.
  unfold sma_name. intros E. cbn [String.append] in E. injection E as E.
  change (NilZero.string_of_int (Z.to_int w) = NilZero.string_of_int (Z.to_int w')) in E.
  apply (f_equal NilZero.int_of_string) in E.
  destruct (to_int_not_nil w), (to_int_not_nil w').
  rewrite !NilZero.isi in E by assumption.
  injection E as E. now apply DecimalZ.to_int_inj.
Qed.

Lemma sma_name_not_rsi (w : Z) : sma_name w <> "RSI"%string.
Proof. unfold sma_name. simpl. discriminate. Qed.

Lemma sma_label_not_close (t : string) (w : Z) :
  L2 t (sma_name w) <> L2 t "Close".
Proof.
  intros E. apply (f_equal field_of) in E. exact (sma_name_not_close w E).
Qed.

Lemma sma_label_not_rsi (t : string) (w : Z) :
  L2 t (sma_name w) <> L2 t "RSI".
Proof.
  intros E. apply (f_equal field_of) in E. exact (sma_name_not_rsi w E).
Qed.

Lemma sma_label_inj (t : string) (w w' : Z) :
  L2 t (sma_name w) = L2 t (sma_name w') -> w = w'.
Proof.
  intros E. apply (f_equal field_of) in E. now apply sma_name_inj.
Qed.

Lemma label_eq_dec (a b : label) : {a = b} + {a <> b}.
Proof.
  destruct (label_eqb a b) eqn:E.
  - left. now apply label_eqb_eq.
  - right. intros ->. now rewrite label_eqb_refl in E.
Qed.

(** ** Writing a column twice *)

Lemma setitem_same (f : frame) (key : label) (col : series) :
  getitem f key = Ok col -> setitem f key col = f.
Proof.
  induction f as [|[k c] rest IH]; simpl; [discriminate|].
  destruct (label_eqb k key) eqn:E.
  - now intros [= ->].
  - intros Hg. now rewrite IH.
Qed.

Lemma setitem_setitem (f : frame) (key : label) (c1 c2 : series) :
  setitem (setitem f key c1) key c2 = setitem f key c2.
Proof.
  induction f as [|[k c] rest IH]; simpl.
  - now rewrite label_eqb_refl.
  - destruct (label_eqb k key) eqn:E; simpl; rewrite E; [reflexivity|].
    now rewrite IH.
Qed.

(** ** Several windows in one call *)

(** The loop over non-negative windows, on a frame with a close column:
    it succeeds, every window's column holds the rolling mean of the close
    column, and all other columns are as before. *)
Lemma for_windows_run (d : loc) (ticker : string) (close : series) (ws : list Z) :
  forall (h : heap) (f : frame),
    h !! d = Some (PriceFrame f) ->
    getitem f (L2 ticker "Close") = Ok close ->
    Forall (fun w => (0 <= w)%Z) ws ->
    exists f',
      for_windows d ticker ws h = (Ok tt, <[d := PriceFrame f']> h)
      /\ (forall w, In w ws ->
                    getitem f' (L2 ticker (sma_name w)) = rolling_mean w close)
      /\ (forall key, (forall w, In w ws -> key <> L2 ticker (sma_name w)) ->
                      getitem f' key = getitem f key).
Proof.
  induction ws as [|w ws IH]; intros h f Hd Hc Hws.
  - exists f. split; [|split].
    + cbn [for_windows]. unfold ret. now rewrite insert_id.
    + intros w [].
    + reflexivity.
  - apply Forall_cons_iff in Hws. destruct Hws as [Hw Hws].
    pose proof (rolling_mean_ok w close Hw) as Hr.
    set (sma := map (mean_at _ _) _) in Hr.
    set (f1 := setitem f (L2 ticker (sma_name w)) sma).
    assert (Hc1 : getitem f1 (L2 ticker "Close") = Ok close).
    { unfold f1. rewrite getitem_setitem_ne; [exact Hc|].
      apply sma_label_not_close. }
    destruct (IH (<[d := PriceFrame f1]> h) f1 (lookup_insert_eq h d _) Hc1 Hws)
      as (f' & Hrun & Hin & Hout).
    exists f'. split; [|split].
    + rewrite (for_windows_step h d f ticker w ws close sma Hd Hc Hr).
      fold f1. rewrite Hrun. now rewrite insert_insert_eq.
    + intros w' [<- | Hw'].
      * destruct (in_dec Z.eq_dec w ws) as [Hmem | Hnot]; [now apply Hin|].
        rewrite Hout.
        -- unfold f1. now rewrite getitem_setitem_eq.
        -- intros w' Hw' E. apply sma_label_inj in E. congruence.
      * now apply Hin.
    + intros key Hkey. rewrite Hout by (intros w' Hw'; apply Hkey; now right).
      unfold f1. apply getitem_setitem_ne. intros E. apply (Hkey w); [now left | now symmetry].
Qed.

(** The whole call, on a frame with a close column. *)
Lemma moving_averages_run (h : heap) (data : loc) (f : frame) (ticker : string)
      (close : series) (windows : list Z) :
  h !! data = Some (PriceFrame f) ->
  getitem f (L2 ticker "Close") = Ok close ->
  Forall (fun w => (0 <= w)%Z) windows ->
  exists f',
    calculate_moving_averages data ticker windows h
    = (Ok data, <[data := PriceFrame f']> h)
    /\ (forall w, In w windows ->
                  getitem f' (L2 ticker (sma_name w)) = rolling_mean w close)
    /\ (forall key, (forall w, In w windows -> key <> L2 ticker (sma_name w)) ->
                    getitem f' key = getitem f key).
Proof.
  intros Hd Hc Hws.
  destruct (for_windows_run data ticker close windows h f Hd Hc Hws)
    as (f' & Hrun & Hin & Hout).
  exists f'. split; [|split; assumption].
  unfold calculate_moving_averages, bind. now rewrite Hrun.
Qed.

Lemma for_windows_app (d : loc) (ticker : string) (pre rest : list Z) (h : heap) :
  for_windows d ticker (pre ++ rest) h
  = match for_windows d ticker pre h with
    | (Ok _, h') => for_windows d ticker rest h'
    | (Err e, h') => (Err e, h')
    end.
Proof.
  revert h. induction pre as [|w pre IH]; intros h; [reflexivity|].
  cbn [app for_windows]. unfold bind.
  destruct (getcol d (L2 ticker "Close") h) as [[close|e] h1]; [|reflexivity].
  destruct (lift (rolling_mean w close) h1) as [[sma|e] h2]; [|reflexivity].
  destruct (setcol d (L2 ticker (sma_name w)) sma h2) as [[u|e] h3]; [|reflexivity].
  apply IH.
Qed.

(** ** Windows that the specification calls invalid *)

Lemma mean_at_zero_window (xs : series) (i : nat) : mean_at 0 xs i = NaN.
Proof.
  unfold mean_at.
  pose proof (finite_obs_length (window 0 i xs)) as Hobs.
  unfold window in *. rewrite length_skipn, length_firstn in Hobs.
  destruct (Nat.ltb_spec 0 (length (finite_obs (skipn (S i - 0) (firstn (S i) xs)))));
    [lia|].
  now rewrite andb_false_r.
Qed.

Lemma mean_at_oversized (w : nat) (xs : series) (i : nat) :
  (length xs < w)%nat -> mean_at w xs i = NaN.
Proof.
  intros Hw. unfold mean_at.
  pose proof (finite_obs_length (window w i xs)) as Hobs.
  unfold window in *. rewrite length_skipn, length_firstn in Hobs.
  destruct (Nat.leb_spec w (length (finite_obs (skipn (S i - w) (firstn (S i) xs)))));
    [lia | reflexivity].
Qed.

Lemma rolling_mean_all_nan (w : Z) (xs : series) :
  (w = 0 \/ Z.of_nat (length xs) < w)%Z ->
  rolling_mean w xs = Ok (repeat NaN (length xs)).
Proof.
  intros Hw. rewrite rolling_mean_ok by lia. f_equal.
  rewrite (map_constant _ NaN), length_seq; [reflexivity|]. intros i.
  destruct Hw as [-> | Hw]; [apply mean_at_zero_window|].
  apply mean_at_oversized. lia.
Qed.

Lemma rsi_column_all_nan (w : Z) (close : series) :
  (w = 0 \/ Z.of_nat (length close) < w)%Z ->
  rsi_column (Z.to_nat w) close = repeat NaN (length close).
Proof.
  intros Hw. unfold rsi_column.
  rewrite (map_constant _ NaN), length_seq; [reflexivity|]. intros i.
  assert (E : mean_at (Z.to_nat w) (gain_input close) i = NaN).
  { destruct Hw as [-> | Hw]; [apply mean_at_zero_window|].
    apply mean_at_oversized. rewrite gain_input_length. lia. }
  now rewrite E.
Qed.

Lemma calculate_rsi_negative (h : heap) (d : loc) (f : frame) (ticker : string)
      (w : Z) (close : series) :
  h !! d = Some (PriceFrame f) ->
  getitem f (L2 ticker "Close") = Ok close ->
  (w < 0)%Z ->
  calculate_rsi d ticker w h = (Err ValueError, h).
Proof.
  intros Hd Hc Hw. unfold calculate_rsi.
  unfold bind at 1. rewrite (run_getcol h d f Hd), Hc.
  unfold bind at 1, lift, rolling_mean.
  destruct (Z.ltb_spec w 0); [reflexivity | lia].
Qed.

(** A negative window at the head of the list: the loop stops there. *)
Lemma for_windows_negative (h : heap) (d : loc) (f : frame)
      (ticker : string) (w : Z) (post : list Z) (close : series) :
  h !! d = Some (PriceFrame f) ->
  getitem f (L2 ticker "Close") = Ok close ->
  (w < 0)%Z ->
  for_windows d ticker (w :: post) h = (Err ValueError, h).
Proof.
  intros Hd Hc Hw. cbn [for_windows].
  unfold bind at 1.
  rewrite (run_getcol h d f Hd), Hc.
  unfold bind at 1, lift, rolling_mean.
  destruct (Z.ltb_spec w 0); [reflexivity | lia].
Qed.

Lemma calculate_moving_averages_negative (h : heap) (d : loc) (f : frame)
      (ticker : string) (w : Z) (post : list Z) (close : series) :
  h !! d = Some (PriceFrame f) ->
  getitem f (L2 ticker "Close") = Ok close ->
  (w < 0)%Z ->
  calculate_moving_averages d ticker (w :: post) h = (Err ValueError, h).
Proof.
  intros Hd Hc Hw. unfold calculate_moving_averages. unfold bind at 1.
  now rewrite (for_windows_negative h d f ticker w post close).
Qed.

(** A negative window behind windows that are taken: the loop stops at
    it, with the columns of the windows before it in the frame. *)
Lemma moving_averages_stop (h : heap) (data : loc) (f : frame) (ticker : string)
      (close : series) (pre post : list Z) (w : Z) :
  h !! data = Some (PriceFrame f) ->
  getitem f (L2 ticker "Close") = Ok close ->
  Forall (fun w => (0 <= w)%Z) pre ->
  (w < 0)%Z ->
  exists f',
    calculate_moving_averages data ticker (pre ++ w :: post) h
    = (Err ValueError, <[data := PriceFrame f']> h)
    /\ (forall w', In w' pre ->
                   getitem f' (L2 ticker (sma_name w')) = rolling_mean w' close)
    /\ (forall key, (forall w', In w' pre -> key <> L2 ticker (sma_name w')) ->
                    getitem f' key = getitem f key).
Proof.
  intros Hd Hc Hpre Hw.
  destruct (for_windows_run data ticker close pre h f Hd Hc Hpre)
    as (f' & Hrun & Hin & Hout).
  exists f'. split; [|split; assumption].
  unfold calculate_moving_averages, bind.
  rewrite for_windows_app, Hrun.
  assert (Hc' : getitem f' (L2 ticker "Close") = Ok close).
  { rewrite Hout; [exact Hc|].
    intros w' _ E. symmetry in E. now apply sma_label_not_close in E. }
  now rewrite (for_windows_negative _ data f' ticker w post close
                 (lookup_insert_eq h data _) Hc' Hw).
Qed.

Lemma accepted_window_nonneg (ws : list Z) :
  Forall accepted_window ws -> Forall (fun w => (0 <= w)%Z) ws.
Proof. apply Forall_impl. unfold accepted_window. intros w Hw. lia. Qed.

(** C6, as it fails: with two closes and window 5 both computations
    return normally and store a column, every entry of which is NaN. *)
Lemma oversized_window_returns_a_series :
  calculate_moving_averages 1%positive "T" [5%Z] short_store
  = (Ok 1%positive,
     <[1%positive := PriceFrame (setitem short_frame (L2 "T" "SMA_5") [NaN; NaN])]>
       short_store)
  /\ calculate_rsi 1%positive "T" 5 short_store
     = (Ok 1%positive,
        <[1%positive := PriceFrame (setitem short_frame (L2 "T" "RSI") [NaN; NaN])]>
          short_store).
Proof.
  split.
  - apply (calculate_moving_averages_one _ _ short_frame "T" 5 (map Fin [1; 2]));
      reflexivity.
  - rewrite (calculate_rsi_run _ _ short_frame "T" 5 (map Fin [1; 2]));
      [reflexivity | reflexivity | reflexivity | lia].
Qed.

(** C6, amended.  Neither computation checks its window against the
    series.  A negative window makes the rolling primitive raise
    ValueError.  [calculate_rsi] then stores nothing.
    [calculate_moving_averages] stores nothing for that window or for the
    windows behind it in its list: with the negative window in front the
    store is as it was, and behind windows that are taken the frame holds
    their SMA columns and is otherwise as it was.  A window of 0, or one
    longer than the series and below 2^63, is accepted: the stored SMA and
    RSI columns have the length of the close column, with NaN at every
    position. *)
Theorem window_is_not_validated :
  forall (h : heap) (data : loc) (f : frame) (ticker : string) (close : series),
    h !! data = Some (PriceFrame f) ->
    getitem f (L2 ticker "Close") = Ok close ->
    (forall w : Z,
        (w < 0)%Z ->
        calculate_rsi data ticker w h = (Err ValueError, h)
        /\ (forall post : list Z,
               calculate_moving_averages data ticker (w :: post) h
               = (Err ValueError, h))
        /\ (forall pre post : list Z,
               Forall accepted_window pre ->
               exists f',
                 calculate_moving_averages data ticker (pre ++ w :: post) h
                 = (Err ValueError, <[data := PriceFrame f']> h)
                 /\ (forall w', In w' pre ->
                                getitem f' (L2 ticker (sma_name w'))
                                = rolling_mean w' close)
                 /\ (forall key,
                        (forall w', In w' pre -> key <> L2 ticker (sma_name w')) ->
                        getitem f' key = getitem f key)))
    /\ (forall w : Z,
          (w = 0 \/ Z.of_nat (length close) < w < 2 ^ 63)%Z ->
          calculate_moving_averages data ticker [w] h
          = (Ok data,
             <[data := PriceFrame (setitem f (L2 ticker (sma_name w))
                                     (repeat NaN (length close)))]> h)
          /\ calculate_rsi data ticker w h
             = (Ok data,
                <[data := PriceFrame (setitem f (L2 ticker "RSI")
                                        (repeat NaN (length close)))]> h)).
Proof.
  intros h data f ticker close Hd Hc. split; intros w Hw.
  - split; [|split].
    + now apply (calculate_rsi_negative h data f ticker w close).
    + intros post.
      now apply (calculate_moving_averages_negative h data f ticker w post close).
    + intros pre post Hpre.
      apply (moving_averages_stop h data f ticker close pre post w Hd Hc);
        [now apply accepted_window_nonneg | exact Hw].
  - assert (Hw' : (w = 0 \/ Z.of_nat (length close) < w)%Z) by lia.
    split.
    + apply (calculate_moving_averages_one h data f ticker w close); auto.
      now apply rolling_mean_all_nan.
    + rewrite (calculate_rsi_run h data f ticker w close) by (auto; lia).
      now rewrite rsi_column_all_nan.
Qed.

(** Two closes: window -1 raises and stores nothing, also in front of
    window 1; behind window 1 it raises with SMA_1 stored; window 5 stores
    two NaN. *)
Lemma window_is_not_validated_witness :
  calculate_rsi 1%positive "T" (-1) short_store = (Err ValueError, short_store)
  /\ calculate_moving_averages 1%positive "T" [(-1)%Z; 1%Z] short_store
     = (Err ValueError, short_store)
  /\ (exists f',
         calculate_moving_averages 1%positive "T" [1%Z; (-1)%Z] short_store
         = (Err ValueError, <[1%positive := PriceFrame f']> short_store)
         /\ getitem f' (L2 "T" "SMA_1") = Ok [Fin (1 / 1); Fin (2 / 1)])
  /\ calculate_moving_averages 1%positive "T" [5%Z] short_store
     = (Ok 1%positive,
        <[1%positive := PriceFrame (setitem short_frame (L2 "T" (sma_name 5))
                                      (repeat NaN 2))]> short_store).
Proof.
  destruct (window_is_not_validated short_store 1%positive short_frame
              "T"%string (map Fin [1; 2]) eq_refl eq_refl) as [Hneg Hbig].
  destruct (Hneg (-1)%Z ltac:(lia)) as (Hrsi & Hfront & Hbehind).
  split; [exact Hrsi|]. split; [apply Hfront|]. split.
  - destruct (Hbehind [1%Z] [])
      as (f' & Hrun & Hin & _).
    + repeat constructor; unfold accepted_window; lia.
    + exists f'. split; [exact Hrun|]. apply (Hin 1%Z). simpl. auto.
  - apply Hbig. right. simpl. lia.
Defined.

(** ** Normalized performance *)

Lemma calculate_performance_run (h : heap) (d : loc) (f : frame)
      (adj : list (string * series)) (row0 : list fval) :
  h !! d = Some (PriceFrame f) ->
  xs f "Adj Close" = Ok adj ->
  iloc0 adj = Ok row0 ->
  calculate_performance d h
  = (Ok (fresh (dom h)), <[fresh (dom h) := PriceFrame (normalize adj row0)]> h).
Proof.
  intros Hd Hx Hr. unfold calculate_performance.
  unfold bind at 1. rewrite (run_read h d f Hd).
  unfold bind at 1, lift. rewrite Hx.
  unfold bind at 1. rewrite Hr. reflexivity.
Qed.

(** With at least one row the first row exists. *)
Lemma iloc0_nonempty (cols : list (string * series)) :
  Forall (fun c => snd c <> []) cols -> exists row0, iloc0 cols = Ok row0.
Proof.
  induction 1 as [|[t col] cols Hc _ [row0 IH]]; simpl.
  - now exists [].
  - destruct col as [|x col]; [now contradiction Hc|].
    rewrite IH. simpl. now eexists.
Qed.

(** Each column is divided by its own first entry. *)
Lemma normalize_nth (cols : list (string * series)) (row0 : list fval)
      (k : nat) (t : string) (col : series) :
  iloc0 cols = Ok row0 ->
  nth_error cols k = Some (t, col) ->
  exists x0 rest,
    col = x0 :: rest
    /\ nth_error (normalize cols row0) k
       = Some (L1 t, map (fun x => fmul (fdiv x x0) (Fin 100)) col).
Proof.
  revert row0 k. induction cols as [|[t' col'] cols IH]; intros row0 k Hr Hk.
  - destruct k; discriminate.
  - simpl in Hr. destruct col' as [|x0 rest]; [discriminate|].
    destruct (iloc0 cols) as [r|] eqn:E; [|discriminate].
    simpl in Hr. injection Hr as <-.
    destruct k as [|k]; simpl in Hk.
    + injection Hk as <- <-. now exists x0, rest.
    + simpl. now apply IH.
Qed.

Lemma normalize_length (cols : list (string * series)) (row0 : list fval) :
  iloc0 cols = Ok row0 -> length (normalize cols row0) = length cols.
Proof.
  revert row0. induction cols as [|[t col] cols IH]; intros row0 Hr; [reflexivity|].
  simpl in Hr. destruct col as [|x0 rest]; [discriminate|].
  destruct (iloc0 cols) as [r|] eqn:E; [|discriminate].
  simpl in Hr. injection Hr as <-. simpl. f_equal. now apply IH.
Qed.

Lemma normalized_first_is_100 (q : Q) :
  ~ q == 0 -> fmul (fdiv (Fin q) (Fin q)) (Fin 100) =f= Fin 100.
Proof.
  intros Hq. unfold fdiv.
  destruct (Qeq_bool q 0) eqn:E; [apply Qeq_bool_iff in E; contradiction|].
  cbn [fmul feq]. field. exact Hq.
Qed.

(** C7, as it fails: a non-empty panel whose first adjusted close is 0
    normalizes to NaN, not 100, at the first date. *)
Lemma performance_first_value_not_100 :
  exists (p : loc) (pcol : series),
    calculate_performance 1%positive zero_start_store
    = (Ok p, <[p := PriceFrame [(L1 "T", pcol)]]> zero_start_store)
    /\ nth_error pcol 0 = Some NaN
    /\ ~ (NaN =f= Fin 100).
Proof.
  eexists _, _.
  split; [apply (calculate_performance_run _ _ zero_start_frame
                   [("T"%string, map Fin [0; 5])] [Fin 0]); reflexivity|].
  split; [reflexivity | simpl; tauto].
Qed.

(** C7, amended.  For every panel with at least one date,
    [calculate_performance] returns one column per ticker whose entry [i]
    is [adjusted_close[i] / adjusted_close[0] * 100] in float arithmetic;
    the entry of the first date is exactly 100 for every ticker whose
    first adjusted close is finite and not 0, whatever its level, and NaN
    when the first adjusted close is 0. *)
Theorem performance_is_normalized :
  forall (h : heap) (data : loc) (f : frame) (adj : list (string * series)),
    h !! data = Some (PriceFrame f) ->
    xs f "Adj Close" = Ok adj ->
    Forall (fun c => snd c <> []) adj ->
    exists (p : loc) (perf : frame),
      calculate_performance data h = (Ok p, <[p := PriceFrame perf]> h)
      /\ length perf = length adj
      /\ forall (k : nat) (t : string) (col : series),
           nth_error adj k = Some (t, col) ->
           exists (x0 : fval) (pcol : series),
             nth_error col 0 = Some x0
             /\ nth_error perf k = Some (L1 t, pcol)
             /\ length pcol = length col
             /\ (forall i x, nth_error col i = Some x ->
                             nth_error pcol i = Some (fmul (fdiv x x0) (Fin 100)))
             /\ (forall q, x0 = Fin q -> ~ q == 0 ->
                           exists v, nth_error pcol 0 = Some (Fin v) /\ v == 100)
             /\ (forall q, x0 = Fin q -> q == 0 -> nth_error pcol 0 = Some NaN).
Proof.
  intros h data f adj Hd Hx Hne.
  destruct (iloc0_nonempty adj Hne) as [row0 Hr].
  eexists _, _.
  split; [now apply (calculate_performance_run h data f adj row0)|].
  split; [now apply normalize_length|].
  intros k t col Hk.
  destruct (normalize_nth adj row0 k t col Hr Hk) as (x0 & rest & -> & Hn).
  exists x0. eexists. split; [reflexivity|]. split; [exact Hn|].
  split; [apply length_map|]. split; [|split].
  - intros i x Hi. rewrite nth_error_map, Hi. reflexivity.
  - intros q -> Hq. cbn [map nth_error].
    pose proof (normalized_first_is_100 q Hq) as H100.
    destruct (fmul (fdiv (Fin q) (Fin q)) (Fin 100)) as [v| | |];
      try contradiction.
    now exists v.
  - intros q -> Hq. cbn [map nth_error fdiv].
    apply Qeq_bool_iff in Hq. rewrite Hq.
    apply Qeq_bool_iff, Qeq_alt in Hq. now rewrite Hq.
Qed.

(** Two tickers at levels 2 and 50: both start at 100. *)
Lemma performance_is_normalized_witness :
  exists (p : loc) (perf : frame),
    calculate_performance 1%positive two_ticker_store
    = (Ok p, <[p := PriceFrame perf]> two_ticker_store)
    /\ length perf = 2%nat
    /\ exists pcol v, nth_error perf 1 = Some (L1 "B", pcol)
                      /\ nth_error pcol 0 = Some (Fin v) /\ v == 100.
Proof.
  destruct (performance_is_normalized two_ticker_store 1%positive two_ticker_frame
              [("A"%string, map Fin [2; 3]); ("B"%string, map Fin [50; 40])])
    as (p & perf & Hrun & Hlen & Hcols).
  - reflexivity.
  - reflexivity.
  - repeat constructor; discriminate.
  - exists p, perf. split; [exact Hrun|]. split; [exact Hlen|].
    destruct (Hcols 1%nat "B"%string (map Fin [50; 40]) eq_refl)
      as (x0 & pcol & Hx0 & Hp & _ & _ & H100 & _).
    injection Hx0 as <-.
    destruct (H100 50 eq_refl) as (v & Hv & Hv100); [discriminate|].
    now exists pcol, v.
Defined.

(** ** Correlation *)

Lemma corr_matrix_square (cols : list (string * series)) :
  length (corr_matrix cols) = length cols
  /\ Forall (fun r => length r = length cols) (corr_matrix cols).
Proof.
  unfold corr_matrix. split; [apply length_map|].
  apply Forall_map, Forall_forall. intros r _. apply length_map.
Qed.

Lemma calculate_correlation_run (h : heap) (d : loc) (f : frame)
      (cols : list (string * series)) :
  h !! d = Some (PriceFrame f) ->
  xs f "Close" = Ok cols ->
  calculate_correlation d h
  = (Ok (fresh (dom h)),
     <[fresh (dom h) := CorrFrame (map fst cols) (corr_matrix cols)]> h).
Proof.
  intros Hd Hx. unfold calculate_correlation.
  unfold bind at 1. rewrite (run_read h d f Hd).
  unfold bind at 1, lift. rewrite Hx. reflexivity.
Qed.

(** *** Symmetry *)

Lemma dot_comm (a b : list Q) : dot a b = dot b a.
Proof.
  revert b. induction a as [|x a IH]; intros [|y b]; simpl; auto.
  now rewrite IH, Qmult_comm_eq.
Qed.

Lemma complete_obs_swap (x y : series) :
  map fst (complete_obs y x) = map snd (complete_obs x y)
  /\ map snd (complete_obs y x) = map fst (complete_obs x y).
Proof.
  revert y. induction x as [|a x IH]; intros [|b y].
  - now split.
  - destruct b; now split.
  - destruct a; now split.
  - destruct (IH y) as [H1 H2].
    destruct a, b; simpl; auto; split; congruence.
Qed.

Lemma corr_pair_sym (x y : series) : corr_pair x y = corr_pair y x.
Proof.
  unfold corr_pair, covxy.
  destruct (complete_obs_swap x y) as [H1 H2].
  assert (Hlen : length (complete_obs y x) = length (complete_obs x y)).
  { rewrite <- (length_map fst (complete_obs y x)), H1. apply length_map. }
  rewrite Hlen, H1, H2.
  rewrite (Qmult_comm_eq (ssqdm (map snd _))), (dot_comm (dev (map snd _))).
  reflexivity.
Qed.

(** *** The Cauchy-Schwarz bound *)

Lemma dot_self_nonneg (a : list Q) : 0 <= dot a a.
Proof. induction a as [|x a IH]; simpl; [lra | nra]. Qed.

(** The cross term of the induction step: [2xyc <= x^2 B + y^2 A] whenever
    [c^2 <= A B]. *)
Lemma cross_term_bound (x y c A B : Q) :
  0 <= A -> 0 <= B -> c * c <= A * B ->
  2 * (x * y * c) <= x * x * B + y * y * A.
Proof.
  intros HA HB Hc.
  pose proof (Qsquare_nonneg x) as Hx.
  destruct (Qlt_le_dec 0 A) as [HApos | HA0].
  - pose proof (Qsquare_nonneg (x * c - y * A)) as Hsq.
    assert (Hgap : 0 <= x * x * (A * B - c * c))
      by (apply Qmult_le_0_compat; lra).
    set (T := x * x * B + y * y * A - 2 * (x * y * c)).
    assert (HAT : 0 <= A * T).
    { setoid_replace (A * T)
        with ((x * c - y * A) * (x * c - y * A) + x * x * (A * B - c * c))
        using relation Qeq by (unfold T; ring).
      lra. }
    assert (0 <= T); [|unfold T in *; lra].
    destruct (Qlt_le_dec T 0) as [Hneg|]; [exfalso | assumption].
    assert (0 < A * (- T)) by (apply Qmult_lt_0_compat; lra).
    setoid_replace (A * - T) with (- (A * T)) using relation Qeq in H by ring. lra.
  - assert (HA0' : A == 0) by lra.
    assert (Hc0 : c == 0).
    { apply Qsquare_zero. setoid_replace 0 with (A * B) using relation Qeq by (rewrite HA0'; ring).
      exact Hc. }
    assert (0 <= x * x * B) by (apply Qmult_le_0_compat; lra).
    setoid_replace (2 * (x * y * c)) with 0 using relation Qeq by (rewrite Hc0; ring).
    setoid_replace (y * y * A) with 0 using relation Qeq by (rewrite HA0'; ring). lra.
Qed.

Lemma cauchy_schwarz (a b : list Q) :
  dot a b * dot a b <= dot a a * dot b b.
Proof.
  revert b. induction a as [|x a IH]; intros [|y b]; simpl; try lra.
  specialize (IH b).
  pose proof (dot_self_nonneg a) as HA.
  pose proof (dot_self_nonneg b) as HB.
  pose proof (cross_term_bound x y _ _ _ HA HB IH).
  nra.
Qed.

Lemma ssqdm_nonneg (l : list Q) : 0 <= ssqdm l.
Proof. apply dot_self_nonneg. Qed.

(** A coefficient with a non-zero divisor lies in [-1, 1]. *)
Lemma pearson_in_unit_interval (c d : R) :
  (0 < d)%R -> (c * c <= d)%R -> (-1 <= c / sqrt d <= 1)%R.
Proof.
  intros Hd Hc.
  pose proof (sqrt_lt_R0 d Hd) as Hs.
  pose proof (sqrt_sqrt d (Rlt_le _ _ Hd)) as Hss.
  set (s := sqrt d) in *.
  assert (Hbound : (- s <= c <= s)%R) by nra.
  unfold Rdiv.
  pose proof (Rinv_0_lt_compat s Hs) as Ht.
  pose proof (Rinv_l s (Rgt_not_eq _ _ Hs)) as Hts.
  set (t := (/ s)%R) in *.
  split; nra.
Qed.

Lemma corr_pair_range (x y : series) :
  match corr_pair x y with
  | CNaN => True
  | CVal r => (-1 <= r <= 1)%R
  end.
Proof.
  unfold corr_pair.
  destruct (length (complete_obs x y) <? 1)%nat; [exact I|].
  set (ps := complete_obs x y).
  destruct (Qeq_bool _ 0) eqn:E; [exact I|].
  apply Qeq_bool_neq in E.
  pose proof (ssqdm_nonneg (map fst ps)) as Hx.
  pose proof (ssqdm_nonneg (map snd ps)) as Hy.
  apply pearson_in_unit_interval.
  - rewrite <- RMicromega.Q2R_0. apply Qlt_Rlt.
    assert (0 <= ssqdm (map fst ps) * ssqdm (map snd ps))
      by (apply Qmult_le_0_compat; assumption).
    destruct (Qlt_le_dec 0 (ssqdm (map fst ps) * ssqdm (map snd ps)));
      [assumption|].
    exfalso. apply E. lra.
  - rewrite <- Q2R_mult. apply Qle_Rle. apply cauchy_schwarz.
Qed.

(** *** The diagonal *)

Lemma dot_self_zero (a : list Q) :
  dot a a == 0 -> forall v, In v a -> v == 0.
Proof.
  induction a as [|x a IH]; simpl; intros H0 v Hv; [contradiction|].
  pose proof (Qsquare_nonneg x). pose proof (dot_self_nonneg a).
  destruct Hv as [<- | Hv].
  - apply Qsquare_zero. lra.
  - apply IH; [lra | assumption].
Qed.

Lemma dot_zero_entries (a : list Q) :
  (forall v, In v a -> v == 0) -> dot a a == 0.
Proof.
  induction a as [|x a IH]; simpl; intros Hz; [reflexivity|].
  rewrite IH by auto. rewrite (Hz x) by auto. ring.
Qed.

Lemma ssqdm_varies (l : list Q) : varies l -> 0 < ssqdm l.
Proof.
  intros (p & q & Hp & Hq & Hne).
  pose proof (ssqdm_nonneg l) as H0.
  destruct (Qlt_le_dec 0 (ssqdm l)) as [|Hle]; [assumption|].
  exfalso. apply Hne.
  assert (Hz : ssqdm l == 0) by lra.
  pose proof (dot_self_zero _ Hz) as Hdev. unfold dev in Hdev.
  assert (p - mean l == 0) by (apply Hdev, in_map_iff; eauto).
  assert (q - mean l == 0) by (apply Hdev, in_map_iff; eauto).
  lra.
Qed.

Lemma ssqdm_constant (l : list Q) : constant_obs l -> ssqdm l == 0.
Proof.
  intros Hc. destruct l as [|c l]; [reflexivity|].
  apply dot_zero_entries. intros v Hv. unfold dev in Hv.
  apply in_map_iff in Hv. destruct Hv as (x & <- & Hx).
  assert (Hm : mean (c :: l) == c).
  { unfold mean. rewrite (Qsum_constant _ c) by (intros; apply Hc; simpl; auto).
    field. change 0 with (inject_Z 0). rewrite inject_Z_injective.
    simpl. lia. }
  rewrite Hm, (Hc x c) by (simpl; auto). ring.
Qed.

Lemma complete_obs_self (x : series) :
  complete_obs x x = map (fun q => (q, q)) (finite_obs x).
Proof. induction x as [|[] x IH]; simpl; congruence. Qed.

Lemma complete_obs_self_fst (x : series) : map fst (complete_obs x x) = finite_obs x.
Proof. rewrite complete_obs_self, map_map. apply map_id. Qed.

Lemma complete_obs_self_snd (x : series) : map snd (complete_obs x x) = finite_obs x.
Proof. rewrite complete_obs_self, map_map. apply map_id. Qed.

Lemma corr_pair_self_varies (x : series) :
  varies (finite_obs x) -> corr_pair x x = CVal 1.
Proof.
  intros Hv. pose proof (ssqdm_varies _ Hv) as Hpos.
  unfold corr_pair, covxy.
  rewrite complete_obs_self_fst, complete_obs_self_snd.
  destruct (length (complete_obs x x) <? 1)%nat eqn:El.
  - exfalso. apply Nat.ltb_lt in El.
    rewrite <- (length_map fst), complete_obs_self_fst in El.
    destruct Hv as (p & _ & Hp & _). destruct (finite_obs x); [contradiction|].
    simpl in El. lia.
  - destruct (Qeq_bool _ 0) eqn:E.
    + apply Qeq_bool_iff in E. exfalso. nra.
    + f_equal. fold (ssqdm (finite_obs x)).
      apply Qlt_Rlt in Hpos. rewrite RMicromega.Q2R_0 in Hpos.
      rewrite Q2R_mult, sqrt_square by lra.
      field. lra.
Qed.

Lemma corr_pair_self_constant (x : series) :
  constant_obs (finite_obs x) -> corr_pair x x = CNaN.
Proof.
  intros Hc. pose proof (ssqdm_constant _ Hc) as Hz.
  unfold corr_pair.
  rewrite complete_obs_self_fst.
  destruct (_ <? 1)%nat; [reflexivity|].
  destruct (Qeq_bool _ 0) eqn:E; [reflexivity|].
  apply Qeq_bool_neq in E. exfalso. apply E. rewrite Hz. ring.
Qed.

Lemma corr_matrix_entry_cases (cols : list (string * series)) (a b : nat) :
  entry (corr_matrix cols) a b
  = match nth_error cols a, nth_error cols b with
    | Some ca, Some cb => Some (corr_pair (snd ca) (snd cb))
    | _, _ => None
    end.
Proof.
  unfold entry, corr_matrix. rewrite nth_error_map.
  destruct (nth_error cols a) as [ca|]; [|reflexivity]. cbn [option_map].
  rewrite nth_error_map. now destruct (nth_error cols b).
Qed.

(** *** The claims about [calculate_correlation] *)

(** C5, as it fails: with a single ticker [calculate_correlation] raises
    nothing and returns a 1 x 1 matrix. *)
Lemma correlation_of_one_ticker_is_a_matrix :
  exists (p : loc) (c : cval),
    calculate_correlation 1%positive one_ticker_store
    = (Ok p, <[p := CorrFrame ["T"%string] [[c]]]> one_ticker_store).
Proof.
  eexists _, _.
  apply (calculate_correlation_run _ _ one_ticker_frame
           [("T"%string, map Fin [1; 2; 3])]); reflexivity.
Qed.

(** C5, amended.  [calculate_correlation] produces a k x k matrix for a
    panel with any number k >= 1 of tickers, the 1 x 1 matrix of a single
    ticker included.  It raises KeyError when the frame has two-level
    columns of which none is a close column, and TypeError when the frame
    has no two-level columns (the frame without columns included).  The
    check for fewer than 2 tickers is made by [plot_correlation_heatmap]:
    given a matrix with fewer than 2 rows it prints the warning and draws
    nothing, otherwise it draws the matrix. *)
Theorem correlation_guard_is_in_the_plot :
  forall (h : heap) (data : loc) (f : frame),
    h !! data = Some (PriceFrame f) ->
    (forall cols : list (string * series),
        xs f "Close" = Ok cols ->
        exists (p : loc) (h' : heap),
          calculate_correlation data h = (Ok p, h')
          /\ h' = <[p := CorrFrame (map fst cols) (corr_matrix cols)]> h
          /\ (1 <= length cols)%nat
          /\ length (corr_matrix cols) = length cols
          /\ Forall (fun r => length r = length cols) (corr_matrix cols)
          /\ ((length cols < 2)%nat ->
                plot_correlation_heatmap p h' = (Ok WarnSkip, h'))
          /\ ((2 <= length cols)%nat ->
                plot_correlation_heatmap p h'
                = (Ok (Heatmap (map fst cols) (corr_matrix cols)), h')))
    /\ (two_level f = true ->
        cross_section f "Close" = [] ->
        calculate_correlation data h = (Err KeyError, h))
    /\ (two_level f = false ->
        calculate_correlation data h = (Err TypeError, h)).
Proof.
  intros h data f Hd. split; [|split].
  - intros cols Hx.
    eexists _, _.
    split; [now apply (calculate_correlation_run h data f cols)|].
    split; [reflexivity|].
    split.
    { unfold xs in Hx. destruct (two_level f); [|discriminate].
      destruct (cross_section f "Close"); [discriminate|].
      injection Hx as <-. simpl. lia. }
    destruct (corr_matrix_square cols) as [Hrows Hsq].
    split; [exact Hrows|]. split; [exact Hsq|].
    unfold plot_correlation_heatmap. rewrite lookup_insert_eq, Hrows.
    split; intros Hk.
    + destruct (Nat.ltb_spec (length cols) 2); [reflexivity | lia].
    + destruct (Nat.ltb_spec (length cols) 2); [lia | reflexivity].
  - intros Htwo Hnone. unfold calculate_correlation.
    unfold bind at 1. rewrite (run_read h data f Hd).
    unfold bind at 1, lift, xs. now rewrite Htwo, Hnone.
  - intros Hflat. unfold calculate_correlation.
    unfold bind at 1. rewrite (run_read h data f Hd).
    unfold bind at 1, lift, xs. now rewrite Hflat.
Qed.

(** One ticker: a 1 x 1 matrix comes back and the plot skips it.  A
    frame of adjusted closes only: KeyError.  A frame with plain column
    names: TypeError. *)
Lemma correlation_guard_is_in_the_plot_witness :
  (exists (p : loc) (h' : heap),
      calculate_correlation 1%positive one_ticker_store = (Ok p, h')
      /\ length (corr_matrix [("T"%string, map Fin [1; 2; 3])]) = 1%nat
      /\ plot_correlation_heatmap p h' = (Ok WarnSkip, h'))
  /\ calculate_correlation 1%positive zero_start_store
     = (Err KeyError, zero_start_store)
  /\ calculate_correlation 1%positive percent_store
     = (Err TypeError, percent_store).
Proof.
  split; [|split].
  - destruct (correlation_guard_is_in_the_plot one_ticker_store 1%positive
                one_ticker_frame eq_refl) as [Hsome _].
    destruct (Hsome [("T"%string, map Fin [1; 2; 3])] eq_refl)
      as (p & h' & Hrun & _ & _ & Hlen & _ & Hskip & _).
    exists p, h'. split; [exact Hrun|]. split; [exact Hlen|].
    apply Hskip. simpl. lia.
  - destruct (correlation_guard_is_in_the_plot zero_start_store 1%positive
                zero_start_frame eq_refl) as (_ & Hnone & _).
    apply Hnone; reflexivity.
  - destruct (correlation_guard_is_in_the_plot percent_store 1%positive
                percent_frame eq_refl) as (_ & _ & Hflat).
    apply Hflat. reflexivity.
Defined.

(** C8, as it fails: a ticker whose closes do not move has NaN, not 1.0,
    on the diagonal. *)
Lemma correlation_diagonal_not_one :
  exists (p : loc) (rows : list (list cval)),
    calculate_correlation 1%positive constant_ticker_store
    = (Ok p, <[p := CorrFrame ["A"%string; "B"%string] rows]> constant_ticker_store)
    /\ entry rows 0 0 = Some CNaN
    /\ Some CNaN <> Some (CVal 1).
Proof.
  eexists _, _.
  split; [apply (calculate_correlation_run _ _ constant_ticker_frame
                   [("A"%string, map Fin [1; 1]); ("B"%string, map Fin [1; 2])]);
          reflexivity|].
  split; [reflexivity | discriminate].
Qed.

(** C8, amended.  For every panel the matrix of [calculate_correlation] is
    square and symmetric; the diagonal entry of a ticker is exactly 1 when
    its closes take two different values and NaN when they are all equal;
    two tickers with the same close series, not all equal, have
    off-diagonal entry exactly 1. *)
Theorem correlation_matrix_shape :
  forall (h : heap) (data : loc) (f : frame) (cols : list (string * series)),
    h !! data = Some (PriceFrame f) ->
    xs f "Close" = Ok cols ->
    exists (p : loc) (rows : list (list cval)),
      calculate_correlation data h
      = (Ok p, <[p := CorrFrame (map fst cols) rows]> h)
      /\ length rows = length cols
      /\ Forall (fun r => length r = length cols) rows
      /\ (forall a b, entry rows a b = entry rows b a)
      /\ (forall a t x,
             nth_error cols a = Some (t, x) ->
             (varies (finite_obs x) -> entry rows a a = Some (CVal 1))
             /\ (constant_obs (finite_obs x) -> entry rows a a = Some CNaN))
      /\ (forall a b ta tb x,
             nth_error cols a = Some (ta, x) ->
             nth_error cols b = Some (tb, x) ->
             varies (finite_obs x) ->
             entry rows a b = Some (CVal 1)).
Proof.
  intros h data f cols Hd Hx.
  exists (fresh (dom h)), (corr_matrix cols).
  split; [now apply (calculate_correlation_run h data f cols)|].
  destruct (corr_matrix_square cols) as [Hrows Hsq].
  split; [exact Hrows|]. split; [exact Hsq|].
  split; [|split].
  - intros a b. rewrite !corr_matrix_entry_cases.
    destruct (nth_error cols a), (nth_error cols b); try reflexivity.
    f_equal. apply corr_pair_sym.
  - intros a t x Ha. rewrite corr_matrix_entry_cases, Ha. cbn [snd].
    split; intros Hx'; f_equal.
    + now apply corr_pair_self_varies.
    + now apply corr_pair_self_constant.
  - intros a b ta tb x Ha Hb Hv.
    rewrite corr_matrix_entry_cases, Ha, Hb. cbn [snd].
    f_equal. now apply corr_pair_self_varies.
Qed.

(** Two tickers with the closes [1,2,4]: every entry is 1. *)
Lemma correlation_matrix_shape_witness :
  exists (p : loc) (rows : list (list cval)),
    calculate_correlation 1%positive twin_store
    = (Ok p, <[p := CorrFrame ["A"%string; "B"%string] rows]> twin_store)
    /\ entry rows 0 0 = Some (CVal 1)
    /\ entry rows 0 1 = Some (CVal 1)
    /\ entry rows 1 0 = Some (CVal 1).
Proof.
  destruct (correlation_matrix_shape twin_store 1%positive twin_frame
              [("A"%string, map Fin [1; 2; 4]); ("B"%string, map Fin [1; 2; 4])]
              eq_refl eq_refl)
    as (p & rows & Hrun & _ & _ & Hsym & Hdiag & Hoff).
  assert (Hv : varies (finite_obs (map Fin [1; 2; 4]))).
  { exists 1, 2. simpl. split; [auto|]. split; [auto|]. discriminate. }
  exists p, rows. split; [exact Hrun|].
  assert (H01 : entry rows 0 1 = Some (CVal 1))
    by (apply (Hoff 0%nat 1%nat "A"%string "B"%string (map Fin [1; 2; 4]));
        [reflexivity | reflexivity | exact Hv]).
  split; [apply (Hdiag 0%nat "A"%string (map Fin [1; 2; 4]) eq_refl), Hv|].
  split; [exact H01 | rewrite Hsym; exact H01].
Defined.

(** C10.  Every defined entry of the matrix of [calculate_correlation]
    lies in the closed interval [-1, 1] (in exact arithmetic; this holds
    for every panel, and so for those whose close series are not
    constant). *)
Theorem correlation_entries_bounded :
  forall (h : heap) (data : loc) (f : frame) (cols : list (string * series)),
    h !! data = Some (PriceFrame f) ->
    xs f "Close" = Ok cols ->
    exists (p : loc),
      calculate_correlation data h
      = (Ok p, <[p := CorrFrame (map fst cols) (corr_matrix cols)]> h)
      /\ forall a b r,
           entry (corr_matrix cols) a b = Some (CVal r) -> (-1 <= r <= 1)%R.
Proof.
  intros h data f cols Hd Hx.
  eexists. split; [now apply (calculate_correlation_run h data f cols)|].
  intros a b r. rewrite corr_matrix_entry_cases.
  destruct (nth_error cols a) as [ca|], (nth_error cols b) as [cb|];
    try discriminate.
  intros [= Hr]. pose proof (corr_pair_range (snd ca) (snd cb)) as Hrange.
  now rewrite Hr in Hrange.
Qed.

(** Closes [1,2,4] against [3,1,2]: the off-diagonal entry is defined and
    lies in [-1, 1]. *)
Lemma correlation_entries_bounded_witness :
  exists (p : loc) (r : R),
    calculate_correlation 1%positive mixed_store
    = (Ok p,
       <[p := CorrFrame ["A"%string; "B"%string]
                (corr_matrix [("A"%string, map Fin [1; 2; 4]);
                              ("B"%string, map Fin [3; 1; 2])])]> mixed_store)
    /\ entry (corr_matrix [("A"%string, map Fin [1; 2; 4]);
                           ("B"%string, map Fin [3; 1; 2])]) 0 1 = Some (CVal r)
    /\ (-1 <= r <= 1)%R.
Proof.
  destruct (correlation_entries_bounded mixed_store 1%positive mixed_frame
              [("A"%string, map Fin [1; 2; 4]); ("B"%string, map Fin [3; 1; 2])]
              eq_refl eq_refl)
    as (p & Hrun & Hbound).
  exists p. eexists. split; [exact Hrun|].
  split; [reflexivity|].
  apply (Hbound 0%nat 1%nat). reflexivity.
Defined.

(** ** What the operations do to the store *)

(** The loop of [calculate_moving_averages] writes to the object behind
    [d] and to nothing else, and only to the SMA labels. *)
Lemma for_windows_footprint (d : loc) (ticker : string) (ws : list Z) :
  forall (h : heap) (f : frame) (r : result unit) (h' : heap),
    h !! d = Some (PriceFrame f) ->
    for_windows d ticker ws h = (r, h') ->
    (forall d', d' <> d -> h' !! d' = h !! d')
    /\ exists f', h' !! d = Some (PriceFrame f')
         /\ forall key, (forall w, In w ws -> key <> L2 ticker (sma_name w)) ->
                        getitem f' key = getitem f key.
Proof.
  induction ws as [|w ws IH]; intros h f r h' Hd Hrun.
  - injection Hrun as <- <-. split; [reflexivity|]. now exists f.
  - cbn [for_windows] in Hrun. unfold bind at 1 in Hrun.
    rewrite (run_getcol h d f Hd) in Hrun.
    destruct (getitem f (L2 ticker "Close")) as [close|e].
    2:{ injection Hrun as <- <-. split; [reflexivity|]. now exists f. }
    unfold bind at 1, lift in Hrun.
    destruct (rolling_mean w close) as [sma|e].
    2:{ injection Hrun as <- <-. split; [reflexivity|]. now exists f. }
    unfold bind at 1 in Hrun. rewrite (run_setcol h d f Hd) in Hrun.
    destruct (IH _ _ r h' (lookup_insert_eq h d _) Hrun)
      as (Hother & f' & Hd' & Hkeys).
    split.
    + intros d' Hne. rewrite Hother by exact Hne.
      now apply lookup_insert_ne.
    + exists f'. split; [exact Hd'|]. intros key Hkey.
      rewrite Hkeys by (intros w' Hw'; apply Hkey; now right).
      apply getitem_setitem_ne. intros E. apply (Hkey w); [now left | now symmetry].
Qed.

Lemma fresh_is_unused (h : heap) : h !! fresh (dom h) = None.
Proof. apply not_elem_of_dom. apply is_fresh. Qed.

Lemma alloc_footprint (h : heap) (o : obj) (d : loc) :
  is_Some (h !! d) -> <[fresh (dom h) := o]> h !! d = h !! d.
Proof.
  intros [x Hx]. apply lookup_insert_ne. intros E.
  rewrite <- E, fresh_is_unused in Hx. discriminate.
Qed.

(** C9, as it fails: [calculate_moving_averages] and [calculate_rsi]
    return the reference they were given, and the frame behind it is not
    what it was before the call. *)
Lemma indicator_result_aliases_changed_input :
  exists (h1 h2 : heap),
    calculate_moving_averages 1%positive "T" [2%Z] updown_store = (Ok 1%positive, h1)
    /\ h1 !! 1%positive <> updown_store !! 1%positive
    /\ calculate_rsi 1%positive "T" 2 updown_store = (Ok 1%positive, h2)
    /\ h2 !! 1%positive <> updown_store !! 1%positive.
Proof.
  eexists _, _.
  split; [apply (calculate_moving_averages_one _ _ updown_frame "T" 2
                   (map Fin [1; 2; 1])); reflexivity|].
  split; [rewrite lookup_insert_eq; discriminate|].
  split; [apply (calculate_rsi_run _ _ updown_frame "T" 2 (map Fin [1; 2; 1]));
          [reflexivity | reflexivity | lia]|].
  rewrite lookup_insert_eq. discriminate.
Qed.

(** What [calculate_rsi] writes to: the object behind [d], and there the
    RSI column only. *)
Lemma calculate_rsi_footprint (d : loc) (ticker : string) (w : Z)
      (h : heap) (f : frame) (r : result loc) (h' : heap) :
  h !! d = Some (PriceFrame f) ->
  calculate_rsi d ticker w h = (r, h') ->
  (forall p, r = Ok p -> p = d)
  /\ (forall d', d' <> d -> h' !! d' = h !! d')
  /\ exists f', h' !! d = Some (PriceFrame f')
       /\ forall key, key <> L2 ticker "RSI" -> getitem f' key = getitem f key.
Proof.
  intros Hd Hrun.
  unfold calculate_rsi in Hrun. unfold bind at 1 in Hrun.
  rewrite (run_getcol h d f Hd) in Hrun.
  destruct (getitem f (L2 ticker "Close")) as [close|e].
  2:{ injection Hrun as <- <-. split; [discriminate|]. split; [reflexivity|].
      now exists f. }
  unfold bind at 1, lift in Hrun.
  destruct (rolling_mean w (gain_input close)) as [gain|e].
  2:{ injection Hrun as <- <-. split; [discriminate|]. split; [reflexivity|].
      now exists f. }
  unfold bind at 1 in Hrun.
  destruct (rolling_mean w (loss_input close)) as [loss|e].
  2:{ injection Hrun as <- <-. split; [discriminate|]. split; [reflexivity|].
      now exists f. }
  unfold bind at 1 in Hrun. rewrite (run_setcol h d f Hd) in Hrun.
  injection Hrun as <- <-.
  split; [intros p [=]; congruence|].
  split; [intros d' Hne; now apply lookup_insert_ne|].
  eexists. split; [apply lookup_insert_eq|].
  intros key Hkey. apply getitem_setitem_ne. congruence.
Qed.

(** C9, amended.  [calculate_moving_averages] and [calculate_rsi] update
    the frame they are given in place and return that same reference.
    They leave every other object of the store unchanged and, in the
    frame, every column other than the SMA columns (respectively the RSI
    column) they assign, so the close column is as before.  What they
    assign: on a frame with the ticker's close column and with windows that
    the rolling primitive takes, the call succeeds and afterwards the
    column [SMA_w] of every window holds the rolling mean of that width of
    the close column, respectively the RSI column holds the RSI of the
    close column, whether the column existed before or not.
    [calculate_performance] and [calculate_correlation] leave every
    existing object unchanged; when they succeed the store has gained one
    object, the result, under a reference that was not in use, and when
    they fail the store is as it was. *)
Theorem store_effects :
  forall (h : heap) (data : loc) (f : frame),
    h !! data = Some (PriceFrame f) ->
    (forall ticker windows r h',
        calculate_moving_averages data ticker windows h = (r, h') ->
        (forall p, r = Ok p -> p = data)
        /\ (forall d', d' <> data -> h' !! d' = h !! d')
        /\ exists f', h' !! data = Some (PriceFrame f')
             /\ getitem f' (L2 ticker "Close") = getitem f (L2 ticker "Close")
             /\ (forall key, (forall w, In w windows -> key <> L2 ticker (sma_name w)) ->
                             getitem f' key = getitem f key)
             /\ (forall close,
                    getitem f (L2 ticker "Close") = Ok close ->
                    Forall accepted_window windows ->
                    r = Ok data
                    /\ forall w, In w windows ->
                                 getitem f' (L2 ticker (sma_name w))
                                 = rolling_mean w close))
    /\ (forall ticker window r h',
          calculate_rsi data ticker window h = (r, h') ->
          (forall p, r = Ok p -> p = data)
          /\ (forall d', d' <> data -> h' !! d' = h !! d')
          /\ exists f', h' !! data = Some (PriceFrame f')
               /\ (forall key, key <> L2 ticker "RSI" ->
                               getitem f' key = getitem f key)
               /\ (forall close,
                      getitem f (L2 ticker "Close") = Ok close ->
                      accepted_window window ->
                      r = Ok data
                      /\ getitem f' (L2 ticker "RSI")
                         = Ok (rsi_column (Z.to_nat window) close)))
    /\ (forall r h',
          calculate_performance data h = (r, h') ->
          (forall d', is_Some (h !! d') -> h' !! d' = h !! d')
          /\ (forall p, r = Ok p ->
                        h !! p = None /\ p <> data
                        /\ exists perf, h' = <[p := PriceFrame perf]> h)
          /\ (forall e, r = Err e -> h' = h))
    /\ (forall r h',
          calculate_correlation data h = (r, h') ->
          (forall d', is_Some (h !! d') -> h' !! d' = h !! d')
          /\ (forall p, r = Ok p ->
                        h !! p = None /\ p <> data
                        /\ exists tickers rows, h' = <[p := CorrFrame tickers rows]> h)
          /\ (forall e, r = Err e -> h' = h)).
Proof.
  intros h data f Hd.
  assert (Hfresh : fresh (dom h) <> data).
  { intros E. pose proof (fresh_is_unused h) as Hn. rewrite E, Hd in Hn. discriminate. }
  split; [|split; [|split]].
  - intros ticker windows r h' Hrun.
    assert (Hloop : exists r0, for_windows data ticker windows h = (r0, h')
                               /\ forall p, r = Ok p -> p = data).
    { unfold calculate_moving_averages, bind in Hrun.
      destruct (for_windows data ticker windows h) as [[[]|e] h1];
        injection Hrun as <- <-; eexists; (split; [reflexivity|]);
        intros p [=]; congruence. }
    destruct Hloop as (r0 & Hloop & Hret).
    destruct (for_windows_footprint _ _ _ _ _ _ _ Hd Hloop)
      as (Hother & f' & Hd' & Hkeys).
    split; [exact Hret|]. split; [exact Hother|].
    exists f'. split; [exact Hd'|]. split; [|split; [exact Hkeys|]].
    + apply Hkeys. intros w _ E. symmetry in E. now apply sma_label_not_close in E.
    + intros close Hc Hws.
      destruct (moving_averages_run h data f ticker close windows Hd Hc
                  (accepted_window_nonneg _ Hws)) as (f'' & Hok & Hin & _).
      rewrite Hok in Hrun. injection Hrun as <- <-.
      rewrite lookup_insert_eq in Hd'. injection Hd' as <-.
      split; [reflexivity | exact Hin].
  - intros ticker window r h' Hrun.
    destruct (calculate_rsi_footprint data ticker window h f r h' Hd Hrun)
      as (Hret & Hother & f' & Hd' & Hkeys).
    split; [exact Hret|]. split; [exact Hother|].
    exists f'. split; [exact Hd'|]. split; [exact Hkeys|].
    intros close Hc Hw.
    rewrite (calculate_rsi_run h data f ticker window close Hd Hc (proj1 Hw)) in Hrun.
    injection Hrun as <- <-.
    rewrite lookup_insert_eq in Hd'. injection Hd' as <-.
    split; [reflexivity | apply getitem_setitem_eq].
  - intros r h' Hrun.
    unfold calculate_performance in Hrun. unfold bind at 1 in Hrun.
    rewrite (run_read h data f Hd) in Hrun.
    unfold bind at 1, lift in Hrun.
    destruct (xs f "Adj Close") as [adj|e].
    2:{ injection Hrun as <- <-.
        split; [reflexivity|]. split; [discriminate | reflexivity]. }
    unfold bind at 1 in Hrun.
    destruct (iloc0 adj) as [row0|e].
    2:{ injection Hrun as <- <-.
        split; [reflexivity|]. split; [discriminate | reflexivity]. }
    unfold alloc in Hrun. injection Hrun as <- <-.
    split; [intros d' Hsome; now apply alloc_footprint|].
    split; [|discriminate].
    intros p [= <-]. split; [apply fresh_is_unused|].
    split; [exact Hfresh|]. now eexists.
  - intros r h' Hrun.
    unfold calculate_correlation in Hrun. unfold bind at 1 in Hrun.
    rewrite (run_read h data f Hd) in Hrun.
    unfold bind at 1, lift in Hrun.
    destruct (xs f "Close") as [cols|e].
    2:{ injection Hrun as <- <-.
        split; [reflexivity|]. split; [discriminate | reflexivity]. }
    unfold alloc in Hrun. injection Hrun as <- <-.
    split; [intros d' Hsome; now apply alloc_footprint|].
    split; [|discriminate].
    intros p [= <-]. split; [apply fresh_is_unused|].
    split; [exact Hfresh|]. now eexists _, _.
Qed.

(** Two tickers: the SMA call hands back reference 1 with the close column
    as it was and the new column SMA_2 in the frame; the RSI call hands
    back reference 1 with the RSI column in the frame; the performance
    call hands back another reference and leaves the frame behind
    reference 1 alone. *)
Lemma store_effects_witness :
  (exists (h1 : heap) (f1 : frame),
      calculate_moving_averages 1%positive "A" [2%Z] two_ticker_store
      = (Ok 1%positive, h1)
      /\ h1 !! 1%positive = Some (PriceFrame f1)
      /\ getitem f1 (L2 "A" "Close") = Ok (map Fin [2; 3])
      /\ getitem f1 (L2 "A" "SMA_2") = rolling_mean 2 (map Fin [2; 3]))
  /\ (exists (h1 : heap) (f1 : frame),
        calculate_rsi 1%positive "A" 2 two_ticker_store = (Ok 1%positive, h1)
        /\ h1 !! 1%positive = Some (PriceFrame f1)
        /\ getitem f1 (L2 "A" "RSI") = Ok (rsi_column 2 (map Fin [2; 3])))
  /\ (exists (p : loc) (h2 : heap),
        calculate_performance 1%positive two_ticker_store = (Ok p, h2)
        /\ h2 !! 1%positive = two_ticker_store !! 1%positive
        /\ p <> 1%positive).
Proof.
  destruct (store_effects two_ticker_store 1%positive two_ticker_frame eq_refl)
    as (Hsma & Hrsi & Hperf & _).
  split; [|split].
  - destruct (calculate_moving_averages 1%positive "A" [2%Z] two_ticker_store)
      as [r h1] eqn:Hrun.
    destruct (Hsma _ _ _ _ Hrun) as (_ & _ & f1 & Hd1 & Hclose & _ & Hnew).
    destruct (Hnew (map Fin [2; 3]) eq_refl) as [-> Hcol].
    { repeat constructor; unfold accepted_window; lia. }
    exists h1, f1. split; [reflexivity|]. split; [exact Hd1|].
    split; [rewrite Hclose; reflexivity|].
    apply (Hcol 2%Z). simpl. auto.
  - destruct (calculate_rsi 1%positive "A" 2 two_ticker_store) as [r h1] eqn:Hrun.
    destruct (Hrsi _ _ _ _ Hrun) as (_ & _ & f1 & Hd1 & _ & Hnew).
    destruct (Hnew (map Fin [2; 3]) eq_refl) as [-> Hcol].
    { unfold accepted_window; lia. }
    exists h1, f1. split; [reflexivity|]. split; [exact Hd1|]. exact Hcol.
  - pose proof (calculate_performance_run two_ticker_store 1%positive
                  two_ticker_frame _ _ eq_refl eq_refl eq_refl) as Hrun.
    destruct (Hperf _ _ Hrun) as (Hkeep & Hnew & _).
    eexists _, _. split; [exact Hrun|].
    split; [apply Hkeep; now eexists|].
    now apply (Hnew _ eq_refl).
Defined.

(** * Further properties of the analysis module *)

(** X1.  Called with any list of windows from 0 to below 2^63 on a frame
    that has the ticker's close column, [calculate_moving_averages]
    succeeds and returns its argument; afterwards, for every window of the
    list, the column [SMA_w] holds the rolling mean of width [w] of the
    close column, and every column that is not one of these is
    unchanged. *)
Theorem moving_averages_all_windows :
  forall (h : heap) (data : loc) (f : frame) (ticker : string)
         (close : series) (windows : list Z),
    h !! data = Some (PriceFrame f) ->
    getitem f (L2 ticker "Close") = Ok close ->
    Forall accepted_window windows ->
    exists f',
      calculate_moving_averages data ticker windows h
      = (Ok data, <[data := PriceFrame f']> h)
      /\ (forall w, In w windows ->
                    getitem f' (L2 ticker (sma_name w)) = rolling_mean w close)
      /\ (forall key, (forall w, In w windows -> key <> L2 ticker (sma_name w)) ->
                      getitem f' key = getitem f key).
Proof.
  intros h data f ticker close windows Hd Hc Hws.
  apply accepted_window_nonneg in Hws.
  destruct (for_windows_run data ticker close windows h f Hd Hc Hws)
    as (f' & Hrun & Hin & Hout).
  exists f'. split; [|split; assumption].
  unfold calculate_moving_averages, bind. now rewrite Hrun.
Qed.

(** The default windows 50 and 200 on the two-day panel: both columns are
    stored, and the close column is still there. *)
Lemma moving_averages_all_windows_witness :
  exists f',
    calculate_moving_averages 1%positive "A" [50%Z; 200%Z] two_ticker_store
    = (Ok 1%positive, <[1%positive := PriceFrame f']> two_ticker_store)
    /\ getitem f' (L2 "A" "SMA_50") = Ok [NaN; NaN]
    /\ getitem f' (L2 "A" "SMA_200") = Ok [NaN; NaN]
    /\ getitem f' (L2 "A" "Close") = Ok (map Fin [2; 3]).
Proof.
  destruct (moving_averages_all_windows two_ticker_store 1%positive
              two_ticker_frame "A"%string (map Fin [2; 3]) [50%Z; 200%Z])
    as (f' & Hrun & Hin & Hout).
  - reflexivity.
  - reflexivity.
  - repeat constructor; unfold accepted_window; lia.
  - exists f'. split; [exact Hrun|].
    split; [apply (Hin 50%Z); simpl; auto|].
    split; [apply (Hin 200%Z); simpl; auto|].
    rewrite Hout; [reflexivity|].
    intros w _ E. symmetry in E. now apply sma_label_not_close in E.
Defined.

(** X2.  A negative window in the list stops [calculate_moving_averages]
    with ValueError, but not before the windows in front of it (from 0 to
    below 2^63) have been processed: the caller's frame keeps their SMA
    columns. *)
Theorem moving_averages_fail_after_partial_update :
  forall (h : heap) (data : loc) (f : frame) (ticker : string)
         (close : series) (pre post : list Z) (w : Z),
    h !! data = Some (PriceFrame f) ->
    getitem f (L2 ticker "Close") = Ok close ->
    Forall accepted_window pre ->
    (w < 0)%Z ->
    exists f',
      calculate_moving_averages data ticker (pre ++ w :: post) h
      = (Err ValueError, <[data := PriceFrame f']> h)
      /\ (forall w', In w' pre ->
                     getitem f' (L2 ticker (sma_name w')) = rolling_mean w' close)
      /\ (forall key, (forall w', In w' pre -> key <> L2 ticker (sma_name w')) ->
                      getitem f' key = getitem f key).
Proof.
  intros h data f ticker close pre post w Hd Hc Hpre Hw.
  apply (moving_averages_stop h data f ticker close pre post w Hd Hc);
    [now apply accepted_window_nonneg | exact Hw].
Qed.

(** Windows 1 then -1 on the closes [1,2]: the call raises, and SMA_1 is
    in the frame. *)
Lemma moving_averages_fail_after_partial_update_witness :
  exists f',
    calculate_moving_averages 1%positive "T" [1%Z; (-1)%Z] short_store
    = (Err ValueError, <[1%positive := PriceFrame f']> short_store)
    /\ getitem f' (L2 "T" "SMA_1") = Ok [Fin (1 / 1); Fin (2 / 1)].
Proof.
  destruct (moving_averages_fail_after_partial_update short_store 1%positive
              short_frame "T"%string (map Fin [1; 2]) [1%Z] [] (-1)%Z)
    as (f' & Hrun & Hin & _).
  - reflexivity.
  - reflexivity.
  - repeat constructor; unfold accepted_window; lia.
  - lia.
  - exists f'. split; [exact Hrun|]. apply (Hin 1%Z). simpl. auto.
Defined.

(** ** Missing columns and empty window lists *)

(** X3.  Without the ticker's close column, [calculate_rsi] and
    [calculate_moving_averages] with at least one window raise KeyError and
    leave the store as it was; with an empty window list
    [calculate_moving_averages] looks nothing up and returns its argument,
    close column or not. *)
Theorem indicators_need_the_close_column :
  forall (h : heap) (data : loc) (f : frame) (ticker : string),
    h !! data = Some (PriceFrame f) ->
    calculate_moving_averages data ticker [] h = (Ok data, h)
    /\ (getitem f (L2 ticker "Close") = Err KeyError ->
        (forall w ws,
            calculate_moving_averages data ticker (w :: ws) h = (Err KeyError, h))
        /\ (forall w, calculate_rsi data ticker w h = (Err KeyError, h))).
Proof.
  intros h data f ticker Hd. split; [reflexivity|].
  intros Hmiss. split.
  - intros w ws. unfold calculate_moving_averages. cbn [for_windows].
    unfold bind at 1. unfold bind at 1.
    now rewrite (run_getcol h data f Hd), Hmiss.
  - intros w. unfold calculate_rsi. unfold bind at 1.
    now rewrite (run_getcol h data f Hd), Hmiss.
Qed.

(** A frame with adjusted closes only. *)
Lemma indicators_need_the_close_column_witness :
  calculate_moving_averages 1%positive "T" [] zero_start_store
  = (Ok 1%positive, zero_start_store)
  /\ calculate_moving_averages 1%positive "T" [50%Z; 200%Z] zero_start_store
     = (Err KeyError, zero_start_store)
  /\ calculate_rsi 1%positive "T" 14 zero_start_store
     = (Err KeyError, zero_start_store).
Proof.
  destruct (indicators_need_the_close_column zero_start_store 1%positive
              zero_start_frame "T"%string eq_refl) as [Hnil Hmiss].
  destruct (Hmiss eq_refl) as [Hma Hrsi].
  split; [exact Hnil|]. split; [apply Hma | apply Hrsi].
Defined.

(** ** Order and repetition of the two indicator calls *)

(** X4.  On a frame with the ticker's close column and with windows from
    0 to below 2^63, calling [calculate_moving_averages] and then [calculate_rsi] on
    its result gives the same columns as calling them in the other order:
    both succeed, return the frame they were given, and every label reads
    the same in the two resulting frames. *)
Theorem indicator_calls_commute :
  forall (h : heap) (data : loc) (f : frame) (ticker : string)
         (close : series) (windows : list Z) (rsi_window : Z),
    h !! data = Some (PriceFrame f) ->
    getitem f (L2 ticker "Close") = Ok close ->
    Forall accepted_window windows ->
    accepted_window rsi_window ->
    exists f1 f2,
      ma_then_rsi data ticker windows rsi_window h
      = (Ok data, <[data := PriceFrame f1]> h)
      /\ rsi_then_ma data ticker windows rsi_window h
         = (Ok data, <[data := PriceFrame f2]> h)
      /\ forall key, getitem f1 key = getitem f2 key.
Proof.
  intros h data f ticker close windows rw Hd Hc Hws Hrw.
  apply accepted_window_nonneg in Hws. apply proj1 in Hrw.
  (* moving averages, then RSI *)
  destruct (moving_averages_run h data f ticker close windows Hd Hc Hws)
    as (fa & Hma & Hin_a & Hout_a).
  assert (Hca : getitem fa (L2 ticker "Close") = Ok close).
  { rewrite Hout_a; [exact Hc|].
    intros w _ E. symmetry in E. now apply sma_label_not_close in E. }
  pose proof (calculate_rsi_run _ data fa ticker rw close
                (lookup_insert_eq h data _) Hca Hrw) as Hrsi_a.
  rewrite insert_insert_eq in Hrsi_a.
  (* RSI, then moving averages *)
  pose proof (calculate_rsi_run h data f ticker rw close Hd Hc Hrw) as Hrsi_b.
  set (fb := setitem f (L2 ticker "RSI") (rsi_column (Z.to_nat rw) close)) in *.
  assert (Hcb : getitem fb (L2 ticker "Close") = Ok close).
  { unfold fb. rewrite getitem_setitem_ne; [exact Hc | discriminate]. }
  destruct (moving_averages_run _ data fb ticker close windows
              (lookup_insert_eq h data _) Hcb Hws)
    as (f2 & Hma_b & Hin_b & Hout_b).
  rewrite insert_insert_eq in Hma_b.
  eexists _, f2. split; [|split].
  - unfold ma_then_rsi, bind. rewrite Hma. exact Hrsi_a.
  - unfold rsi_then_ma, bind. rewrite Hrsi_b. exact Hma_b.
  - intros key.
    destruct (in_dec label_eq_dec key
                (map (fun w => L2 ticker (sma_name w)) windows)) as [Hk | Hk].
    + apply in_map_iff in Hk. destruct Hk as (w & <- & Hw).
      rewrite getitem_setitem_ne by (intros E; symmetry in E; now apply sma_label_not_rsi in E).
      now rewrite Hin_a, Hin_b.
    + assert (Hfree : forall w, In w windows -> key <> L2 ticker (sma_name w)).
      { intros w Hw ->. apply Hk, in_map_iff. eauto. }
      rewrite (Hout_b key Hfree). unfold fb.
      destruct (label_eq_dec (L2 ticker "RSI") key) as [<- | Hne].
      * now rewrite !getitem_setitem_eq.
      * rewrite !getitem_setitem_ne by exact Hne. now apply Hout_a.
Qed.

(** Both orders on the closes [1,2,1] with windows 2 and 3 and RSI
    window 2: the SMA_3 and RSI columns agree. *)
Lemma indicator_calls_commute_witness :
  exists f1 f2,
    ma_then_rsi 1%positive "T" [2%Z; 3%Z] 2 updown_store
    = (Ok 1%positive, <[1%positive := PriceFrame f1]> updown_store)
    /\ rsi_then_ma 1%positive "T" [2%Z; 3%Z] 2 updown_store
       = (Ok 1%positive, <[1%positive := PriceFrame f2]> updown_store)
    /\ getitem f1 (L2 "T" "SMA_3") = getitem f2 (L2 "T" "SMA_3")
    /\ getitem f1 (L2 "T" "RSI") = getitem f2 (L2 "T" "RSI").
Proof.
  destruct (indicator_calls_commute updown_store 1%positive updown_frame
              "T"%string (map Fin [1; 2; 1]) [2%Z; 3%Z] 2%Z)
    as (f1 & f2 & H1 & H2 & Hsame).
  - reflexivity.
  - reflexivity.
  - repeat constructor; unfold accepted_window; lia.
  - unfold accepted_window; lia.
  - exists f1, f2. repeat split; auto.
Defined.

(** The loop on a frame that already holds every column it would write. *)
Lemma for_windows_fixed (d : loc) (ticker : string) (close : series) (ws : list Z)
      (h : heap) (f : frame) :
  h !! d = Some (PriceFrame f) ->
  getitem f (L2 ticker "Close") = Ok close ->
  Forall (fun w => (0 <= w)%Z) ws ->
  (forall w, In w ws -> getitem f (L2 ticker (sma_name w)) = rolling_mean w close) ->
  for_windows d ticker ws h = (Ok tt, h).
Proof.
  intros Hd Hc Hws Hhas. induction ws as [|w ws IH]; [reflexivity|].
  apply Forall_cons_iff in Hws. destruct Hws as [Hw Hws].
  pose proof (rolling_mean_ok w close Hw) as Hr.
  rewrite (for_windows_step h d f ticker w ws close _ Hd Hc Hr).
  assert (Hg : getitem f (L2 ticker (sma_name w))
               = Ok (map (mean_at (Z.to_nat w) close) (seq 0 (length close))))
    by (rewrite <- Hr; apply Hhas; now left).
  rewrite (setitem_same _ _ _ Hg).
  rewrite insert_id by exact Hd.
  apply IH; [exact Hws|]. intros w' Hw'. apply Hhas. now right.
Qed.

(** X5.  Repeating an indicator call changes nothing: after
    [calculate_moving_averages] (respectively [calculate_rsi]) has
    succeeded, the same call on its result returns the same reference and
    leaves the store exactly as the first call left it. *)
Theorem indicator_calls_idempotent :
  forall (h : heap) (data : loc) (f : frame) (ticker : string) (close : series),
    h !! data = Some (PriceFrame f) ->
    getitem f (L2 ticker "Close") = Ok close ->
    (forall windows h1,
        Forall (fun w => (0 <= w)%Z) windows ->
        calculate_moving_averages data ticker windows h = (Ok data, h1) ->
        calculate_moving_averages data ticker windows h1 = (Ok data, h1))
    /\ (forall w h1,
          calculate_rsi data ticker w h = (Ok data, h1) ->
          calculate_rsi data ticker w h1 = (Ok data, h1)).
Proof.
  intros h data f ticker close Hd Hc. split.
  - intros windows h1 Hws Hrun.
    destruct (moving_averages_run h data f ticker close windows Hd Hc Hws)
      as (f' & Hrun' & Hin & Hout).
    rewrite Hrun' in Hrun. injection Hrun as <-.
    unfold calculate_moving_averages, bind.
    rewrite (for_windows_fixed data ticker close windows _ f'); auto.
    + apply lookup_insert_eq.
    + rewrite Hout; [exact Hc|].
      intros w _ E. symmetry in E. now apply sma_label_not_close in E.
  - intros w h1 Hrun.
    destruct (Z_lt_le_dec w 0) as [Hneg | Hw].
    { rewrite (calculate_rsi_negative h data f ticker w close Hd Hc Hneg) in Hrun.
      discriminate. }
    rewrite (calculate_rsi_run h data f ticker w close Hd Hc Hw) in Hrun.
    injection Hrun as <-.
    rewrite (calculate_rsi_run _ data _ ticker w close (lookup_insert_eq h data _)).
    + now rewrite setitem_setitem, insert_insert_eq.
    + rewrite getitem_setitem_ne; [exact Hc | discriminate].
    + exact Hw.
Qed.

(** RSI with window 2 on the closes [1,2,1], twice. *)
Lemma indicator_calls_idempotent_witness :
  exists h1,
    calculate_rsi 1%positive "T" 2 updown_store = (Ok 1%positive, h1)
    /\ calculate_rsi 1%positive "T" 2 h1 = (Ok 1%positive, h1).
Proof.
  destruct (indicator_calls_idempotent updown_store 1%positive updown_frame
              "T"%string (map Fin [1; 2; 1]) eq_refl eq_refl) as [_ Hrsi].
  pose proof (calculate_rsi_run updown_store 1%positive updown_frame "T" 2
                (map Fin [1; 2; 1]) eq_refl eq_refl ltac:(lia)) as Hrun.
  eexists. split; [exact Hrun|]. apply Hrsi. exact Hrun.
Defined.

(** ** Normalized performance: errors *)

Lemma iloc0_no_rows (cols : list (string * series)) :
  Exists (fun c => snd c = []) cols -> iloc0 cols = Err IndexError.
Proof.
  induction 1 as [[t col] cols Hc | [t col] cols _ IH]; simpl in *.
  - now subst col.
  - destruct col; [reflexivity|]. now rewrite IH.
Qed.

(** X6.  [calculate_performance] raises TypeError on a frame without
    two-level columns (its own output and the frame without columns are
    such frames), KeyError on a frame with two-level columns of which none
    is an adjusted-close column, and IndexError when an adjusted-close
    column has no rows; in all three cases nothing is allocated and the
    store is as it was. *)
Theorem performance_errors :
  forall (h : heap) (data : loc) (f : frame),
    h !! data = Some (PriceFrame f) ->
    (two_level f = false ->
       calculate_performance data h = (Err TypeError, h))
    /\ (two_level f = true ->
        cross_section f "Adj Close" = [] ->
        calculate_performance data h = (Err KeyError, h))
    /\ (forall adj,
           xs f "Adj Close" = Ok adj ->
           Exists (fun c => snd c = []) adj ->
           calculate_performance data h = (Err IndexError, h)).
Proof.
  intros h data f Hd. split; [|split].
  - intros Hflat. unfold calculate_performance.
    unfold bind at 1. rewrite (run_read h data f Hd).
    unfold bind at 1, lift, xs. now rewrite Hflat.
  - intros Htwo Hnone. unfold calculate_performance.
    unfold bind at 1. rewrite (run_read h data f Hd).
    unfold bind at 1, lift, xs. now rewrite Htwo, Hnone.
  - intros adj Hx Hex. unfold calculate_performance.
    unfold bind at 1. rewrite (run_read h data f Hd).
    unfold bind at 1, lift. rewrite Hx.
    unfold bind at 1. now rewrite (iloc0_no_rows adj Hex).
Qed.

(** A frame with plain column names and the frame without columns; a
    frame of closes only; a frame whose column has no rows. *)
Lemma performance_errors_witness :
  calculate_performance 1%positive percent_store = (Err TypeError, percent_store)
  /\ calculate_performance 1%positive nothing_store = (Err TypeError, nothing_store)
  /\ calculate_performance 1%positive short_store = (Err KeyError, short_store)
  /\ calculate_performance 1%positive no_rows_store = (Err IndexError, no_rows_store).
Proof.
  split; [|split; [|split]].
  - apply (performance_errors percent_store 1%positive percent_frame eq_refl).
    reflexivity.
  - apply (performance_errors nothing_store 1%positive [] eq_refl).
    reflexivity.
  - apply (performance_errors short_store 1%positive short_frame eq_refl);
      reflexivity.
  - apply (performance_errors no_rows_store 1%positive no_rows_frame eq_refl)
      with (adj := [("T"%string, [])]).
    + reflexivity.
    + constructor. reflexivity.
Defined.

(** ** The data fetcher *)

Lemma dropna_all_columns_In (f : frame) (c : label * series) :
  In c (dropna_all_columns f) -> In c f.
Proof.
  induction f as [|[k col] rest IH]; simpl; [tauto|].
  destruct (existsb _ col); simpl; intuition.
Qed.

Lemma dropna_all_columns_has_value (f : frame) :
  Forall (fun c => exists x, In x (snd c) /\ x <> NaN) (dropna_all_columns f).
Proof.
  induction f as [|[k col] rest IH]; simpl; [constructor|].
  destruct (existsb _ col) eqn:E; [|exact IH].
  constructor; [|exact IH].
  apply existsb_exists in E. destruct E as (x & Hx & Hna).
  exists x. split; [exact Hx|]. intros ->. discriminate.
Qed.

Lemma dropna_all_columns_rows (f : frame) (n : nat) :
  Forall (fun c => length (snd c) = n) f ->
  Forall (fun c => length (snd c) = n) (dropna_all_columns f).
Proof.
  intros Hf. apply Forall_forall. intros c Hc.
  apply dropna_all_columns_In in Hc. revert c Hc. now apply Forall_forall.
Qed.

Lemma aligned_rows (f : frame) :
  aligned f -> exists n, Forall (fun c => length (snd c) = n) f.
Proof.
  destruct f as [|[k col] rest]; simpl.
  - exists 0%nat. constructor.
  - intros Hf. now exists (length col).
Qed.

Lemma rows_aligned (f : frame) (n : nat) :
  Forall (fun c => length (snd c) = n) f -> aligned f.
Proof.
  destruct f as [|[k col] rest]; simpl; [trivial|].
  intros Hf. pose proof (Forall_inv Hf) as Hcol. simpl in Hcol. now subst n.
Qed.

(** X8.  [fetch_stock_data] never lets a failure out: if the download
    raises, or returns an empty frame, or only columns without a single
    value, the result is the empty frame and an error line is printed.
    Otherwise, and only then, it prints the success line, and the result is
    the downloaded frame without its all-NaN columns: it is not empty,
    every column has at least one value, every column comes from the
    download, and the columns are still aligned if they were. *)
Theorem fetch_returns_empty_or_clean :
  forall (E : Type) (download : list string -> string -> string -> E + frame)
         (tickers : list string) (start_date end_date : string),
    let result := fetch_stock_data download tickers start_date end_date in
    let announce := MsgFetching tickers start_date end_date in
    (frame_empty (fst result) = true ->
       fst result = []
       /\ exists line, snd result = [announce; line] /\ line <> MsgFetched)
    /\ (frame_empty (fst result) = false ->
          snd result = [announce; MsgFetched]
          /\ exists f0,
               download tickers start_date end_date = inr f0
               /\ fst result = dropna_all_columns f0
               /\ Forall (fun c => exists x, In x (snd c) /\ x <> NaN) (fst result)
               /\ (forall c, In c (fst result) -> In c f0)
               /\ (aligned f0 -> aligned (fst result)))
    /\ (forall e, download tickers start_date end_date = inl e ->
                  result = ([], [announce; MsgUnexpected e])).
Proof.
  intros E download tickers start_date end_date result announce.
  subst result announce. unfold fetch_stock_data.
  destruct (download tickers start_date end_date) as [e | f0] eqn:Hdl.
  - split; [|split].
    + intros _. split; [reflexivity|]. eexists. split; [reflexivity | discriminate].
    + discriminate.
    + now intros e' [= <-].
  - destruct (frame_empty f0) eqn:E0.
    { split; [|split]; [|discriminate|discriminate].
      intros _. split; [reflexivity|]. eexists. split; [reflexivity | discriminate]. }
    destruct (frame_empty (dropna_all_columns f0)) eqn:E1.
    { split; [|split]; [|discriminate|discriminate].
      intros _. split; [reflexivity|]. eexists. split; [reflexivity | discriminate]. }
    cbn [fst snd]. split; [|split]; [congruence| |discriminate].
    intros _. split; [reflexivity|]. exists f0.
    split; [reflexivity|]. split; [reflexivity|].
    split; [apply dropna_all_columns_has_value|].
    split; [apply dropna_all_columns_In|].
    intros Hal. destruct (aligned_rows f0 Hal) as [n Hn].
    apply (rows_aligned _ n). now apply dropna_all_columns_rows.
Qed.

(** A download with a dead ticker keeps the live one; a failing download
    gives the empty frame. *)
Lemma fetch_returns_empty_or_clean_witness :
  fetch_stock_data gappy_download ["A"%string; "B"%string] "2024-01-01" "2024-12-31"
  = ([(L2 "A" "Close", [Fin 1; NaN])],
     [MsgFetching ["A"%string; "B"%string] "2024-01-01" "2024-12-31"; MsgFetched])
  /\ fetch_stock_data failing_download ["A"%string] "2024-01-01" "2024-12-31"
     = ([], [MsgFetching ["A"%string] "2024-01-01" "2024-12-31";
             MsgUnexpected ValueError]).
Proof.
  split.
  - destruct (fetch_returns_empty_or_clean exn gappy_download
                ["A"%string; "B"%string] "2024-01-01" "2024-12-31")
      as (_ & Hclean & _).
    destruct (Hclean eq_refl) as (Hlog & f0 & Hdl & Hres & _).
    injection Hdl as <-.
    rewrite (surjective_pairing (fetch_stock_data _ _ _ _)), Hlog, Hres.
    reflexivity.
  - destruct (fetch_returns_empty_or_clean exn failing_download
                ["A"%string] "2024-01-01" "2024-12-31") as (_ & _ & Hfail).
    now apply Hfail.
Defined.

(** ** After the emptiness check of [main] *)

Lemma cross_section_In (f : frame) (field : string) (c : string * series) :
  In c (cross_section f field) -> In (L2 (fst c) field, snd c) f.
Proof.
  induction f as [|[k col] rest IH]; simpl; [tauto|].
  destruct k as [n | t fld]; [intuition|].
  destruct (String.eqb_spec fld field) as [-> | Hne]; simpl; [|intuition].
  intros [<- | Hin]; [now left | right; auto].
Qed.

Lemma frame_not_empty_rows (f : frame) (n : nat) :
  frame_empty f = false ->
  Forall (fun c => length (snd c) = n) f -> (0 < n)%nat.
Proof.
  destruct f as [|[k col] rest]; simpl; [discriminate|].
  intros He Hf. apply Forall_inv in Hf. simpl in Hf.
  apply Nat.eqb_neq in He. lia.
Qed.

(** X9.  On a frame that passes the check [not stock_data.empty] of
    [main] and whose columns are aligned, [calculate_performance] cannot
    raise IndexError: if the frame has adjusted-close columns at all, the
    call succeeds and returns one column per ticker, each with as many
    rows as the input. *)
Theorem performance_succeeds_on_fetched_data :
  forall (h : heap) (data : loc) (f : frame) (adj : list (string * series))
         (rows : nat),
    h !! data = Some (PriceFrame f) ->
    frame_empty f = false ->
    Forall (fun c => length (snd c) = rows) f ->
    xs f "Adj Close" = Ok adj ->
    exists (p : loc) (perf : frame),
      calculate_performance data h = (Ok p, <[p := PriceFrame perf]> h)
      /\ map fst perf = map (fun c => L1 (fst c)) adj
      /\ Forall (fun c => length (snd c) = rows) perf.
Proof.
  intros h data f adj rows Hd Hne Hrows Hx.
  pose proof (frame_not_empty_rows f rows Hne Hrows) as Hpos.
  assert (Hadj : Forall (fun c => length (snd c) = rows) adj).
  { unfold xs in Hx. destruct (two_level f); [|discriminate].
    destruct (cross_section f "Adj Close") eqn:Hcs; [discriminate|].
    injection Hx as <-. rewrite <- Hcs. apply Forall_forall. intros c Hc.
    apply cross_section_In in Hc.
    apply (proj1 (Forall_forall _ _) Hrows) in Hc. exact Hc. }
  assert (Hfull : Forall (fun c => snd c <> []) adj).
  { eapply Forall_impl; [|exact Hadj]. intros c Hc E. cbv beta in Hc. rewrite E in Hc. simpl in Hc. lia. }
  destruct (iloc0_nonempty adj Hfull) as [row0 Hr].
  eexists _, _.
  split; [now apply (calculate_performance_run h data f adj row0)|].
  clear Hx Hfull. revert row0 Hr. induction Hadj as [|[t col] adj Hc _ IH];
    intros row0 Hr.
  - injection Hr as <-. split; [reflexivity | constructor].
  - simpl in Hr. destruct col as [|x0 col]; [discriminate|].
    destruct (iloc0 adj) as [r|] eqn:Er; [|discriminate].
    simpl in Hr. injection Hr as <-.
    destruct (IH r eq_refl) as [Hl Hn].
    cbn [normalize map fst]. split; [now rewrite Hl|].
    constructor; [|exact Hn]. cbv beta in *. cbn [snd length] in *.
    rewrite length_map. exact Hc.
Qed.

(** The two-ticker panel: two columns of two rows come back. *)
Lemma performance_succeeds_on_fetched_data_witness :
  exists (p : loc) (perf : frame),
    calculate_performance 1%positive two_ticker_store
    = (Ok p, <[p := PriceFrame perf]> two_ticker_store)
    /\ map fst perf = [L1 "A"; L1 "B"]
    /\ Forall (fun c => length (snd c) = 2%nat) perf.
Proof.
  apply (performance_succeeds_on_fetched_data two_ticker_store 1%positive
           two_ticker_frame
           [("A"%string, map Fin [2; 3]); ("B"%string, map Fin [50; 40])] 2).
  - reflexivity.
  - reflexivity.
  - repeat constructor.
  - reflexivity.
Defined.

(** ** The full analysis of one ticker *)

Lemma sma_name_not_volume (w : Z) : sma_name w <> "Volume"%string.
Proof. unfold sma_name. simpl. discriminate. Qed.

Lemma sma_label_not_volume (t : string) (w : Z) :
  L2 t (sma_name w) <> L2 t "Volume".
Proof.
  intros E. apply (f_equal field_of) in E. exact (sma_name_not_volume w E).
Qed.

Lemma copy_run (h : heap) (d : loc) (f : frame) :
  h !! d = Some (PriceFrame f) ->
  copy d h = (Ok (fresh (dom h)), <[fresh (dom h) := PriceFrame f]> h).
Proof. intros Hd. unfold copy, bind. now rewrite (run_read h d f Hd). Qed.

(** Reading a column does not change the store. *)
Lemma getcol_pure (d : loc) (key : label) (h : heap) :
  snd (getcol d key h) = h.
Proof.
  unfold getcol, bind, read, lift.
  destruct (h !! d) as [[f | ts rows] |]; try reflexivity;
    now destruct (getitem f key).
Qed.

Lemma plot_sma_lines_pure (d : loc) (ticker : string) (ws : list Z) (h : heap) :
  snd (plot_sma_lines d ticker ws h) = h.
Proof.
  induction ws as [|w ws IH]; [reflexivity|].
  cbn [plot_sma_lines]. unfold bind at 1.
  pose proof (getcol_pure d (L2 ticker (sma_name w)) h) as Hg.
  destruct (getcol d (L2 ticker (sma_name w)) h) as [[sma|e] h1];
    simpl in Hg; subst h1; [|reflexivity].
  unfold bind at 1.
  destruct (plot_sma_lines d ticker ws h) as [[lines|e] h2];
    simpl in IH; subst h2; reflexivity.
Qed.

Lemma plot_full_analysis_pure (d : loc) (ticker : string) (ws : list Z) (h : heap) :
  snd (plot_full_analysis d ticker ws h) = h.
Proof.
  unfold plot_full_analysis.
  unfold bind at 1.
  pose proof (getcol_pure d (L2 ticker "Close") h) as H1.
  destruct (getcol d (L2 ticker "Close") h) as [[close|e] h1];
    simpl in H1; subst h1; [|reflexivity].
  unfold bind at 1.
  pose proof (plot_sma_lines_pure d ticker ws h) as H2.
  destruct (plot_sma_lines d ticker ws h) as [[smas|e] h2];
    simpl in H2; subst h2; [|reflexivity].
  unfold bind at 1.
  pose proof (getcol_pure d (L2 ticker "Volume") h) as H3.
  destruct (getcol d (L2 ticker "Volume") h) as [[volume|e] h3];
    simpl in H3; subst h3; [|reflexivity].
  unfold bind at 1.
  pose proof (getcol_pure d (L2 ticker "RSI") h) as H4.
  destruct (getcol d (L2 ticker "RSI") h) as [[rsi|e] h4];
    simpl in H4; subst h4; reflexivity.
Qed.

(** The SMA lines of the plot, on a frame that has a column for every
    window. *)
Lemma plot_sma_lines_run (d : loc) (ticker : string) (ws : list Z)
      (h : heap) (f : frame) (col : Z -> series) :
  h !! d = Some (PriceFrame f) ->
  (forall w, In w ws -> getitem f (L2 ticker (sma_name w)) = Ok (col w)) ->
  plot_sma_lines d ticker ws h
  = (Ok (map (fun w => (sma_legend w, col w)) ws), h).
Proof.
  intros Hd. induction ws as [|w ws IH]; intros Hcols; [reflexivity|].
  cbn [plot_sma_lines map]. unfold bind at 1.
  rewrite (run_getcol h d f Hd), (Hcols w (or_introl eq_refl)).
  unfold bind at 1. rewrite IH by (intros w' Hw'; apply Hcols; now right).
  reflexivity.
Qed.

(** Each of the two indicator calls writes to its argument only. *)
Lemma getcol_not_a_frame (d : loc) (key : label) (h : heap) :
  (forall f, h !! d <> Some (PriceFrame f)) ->
  getcol d key h = (Err TypeError, h).
Proof.
  intros Hd. unfold getcol, bind, read.
  destruct (h !! d) as [[f | ts rows] |]; try reflexivity.
  now contradiction (Hd f).
Qed.

Lemma for_windows_others (d : loc) (ticker : string) (ws : list Z)
      (h : heap) (r : result unit) (h' : heap) :
  for_windows d ticker ws h = (r, h') ->
  forall d', d' <> d -> h' !! d' = h !! d'.
Proof.
  intros Hrun d' Hne.
  destruct (h !! d) as [[f | ts rows] |] eqn:Hd.
  - destruct (for_windows_footprint d ticker ws h f r h' Hd Hrun) as [Hother _].
    now apply Hother.
  - destruct ws as [|w ws]; [now injection Hrun as <- <-|].
    cbn [for_windows] in Hrun. unfold bind at 1 in Hrun.
    rewrite getcol_not_a_frame in Hrun by (intros f; rewrite Hd; discriminate).
    now injection Hrun as <- <-.
  - destruct ws as [|w ws]; [now injection Hrun as <- <-|].
    cbn [for_windows] in Hrun. unfold bind at 1 in Hrun.
    rewrite getcol_not_a_frame in Hrun by (intros f; rewrite Hd; discriminate).
    now injection Hrun as <- <-.
Qed.

Lemma calculate_rsi_others (d : loc) (ticker : string) (w : Z)
      (h : heap) (r : result loc) (h' : heap) :
  calculate_rsi d ticker w h = (r, h') ->
  forall d', d' <> d -> h' !! d' = h !! d'.
Proof.
  intros Hrun d' Hne. unfold calculate_rsi in Hrun. unfold bind at 1 in Hrun.
  destruct (h !! d) as [[f | ts rows] |] eqn:Hd.
  - rewrite (run_getcol h d f Hd) in Hrun.
    destruct (getitem f (L2 ticker "Close")) as [close|e];
      [|now injection Hrun as <- <-].
    unfold bind at 1, lift in Hrun.
    destruct (rolling_mean w (gain_input close)) as [gain|e];
      [|now injection Hrun as <- <-].
    unfold bind at 1 in Hrun.
    destruct (rolling_mean w (loss_input close)) as [loss|e];
      [|now injection Hrun as <- <-].
    unfold bind at 1 in Hrun. rewrite (run_setcol h d f Hd) in Hrun.
    injection Hrun as <- <-. now apply lookup_insert_ne.
  - rewrite getcol_not_a_frame in Hrun by (intros f; rewrite Hd; discriminate).
    now injection Hrun as <- <-.
  - rewrite getcol_not_a_frame in Hrun by (intros f; rewrite Hd; discriminate).
    now injection Hrun as <- <-.
Qed.

(** X10.  The single-ticker full analysis of [main] on fetched data with
    close and volume columns and windows from 0 to below 2^63 runs through
    without an exception: every column that [plot_full_analysis] asks for has been
    put there by [calculate_moving_averages] and [calculate_rsi].  The
    figure shows the close and volume columns as fetched, one SMA line per
    window (the rolling mean of that width) and the RSI of window 14; the
    work is done on a copy, which is the only new object. *)
Theorem full_analysis_runs :
  forall (h : heap) (stock_data : loc) (f : frame) (ticker : string)
         (close volume : series) (ma_windows : list Z),
    h !! stock_data = Some (PriceFrame f) ->
    getitem f (L2 ticker "Close") = Ok close ->
    getitem f (L2 ticker "Volume") = Ok volume ->
    Forall accepted_window ma_windows ->
    exists (c : loc) (f' : frame) (fig : figure),
      main_full_single stock_data ticker ma_windows h
      = (Ok fig, <[c := PriceFrame f']> h)
      /\ h !! c = None
      /\ price_line fig = close
      /\ volume_bars fig = volume
      /\ rsi_line fig = rsi_column 14 close
      /\ Forall2 (fun w line => fst line = sma_legend w
                                /\ rolling_mean w close = Ok (snd line))
                 ma_windows (sma_lines fig).
Proof.
  intros h sd f ticker close volume ws Hd Hc Hv Hws.
  apply accepted_window_nonneg in Hws.
  set (c := fresh (dom h)).
  assert (Hc1 : (<[c := PriceFrame f]> h) !! c = Some (PriceFrame f))
    by apply lookup_insert_eq.
  destruct (moving_averages_run _ c f ticker close ws Hc1 Hc Hws)
    as (fa & Hma & Hin & Hout).
  rewrite insert_insert_eq in Hma.
  assert (Hca : getitem fa (L2 ticker "Close") = Ok close).
  { rewrite Hout; [exact Hc|].
    intros w _ E. symmetry in E. now apply sma_label_not_close in E. }
  assert (Hva : getitem fa (L2 ticker "Volume") = Ok volume).
  { rewrite Hout; [exact Hv|].
    intros w _ E. symmetry in E. now apply sma_label_not_volume in E. }
  pose proof (calculate_rsi_run _ c fa ticker 14 close
                (lookup_insert_eq h c _) Hca ltac:(lia)) as Hrsi.
  rewrite insert_insert_eq in Hrsi.
  set (fr := setitem fa (L2 ticker "RSI") (rsi_column (Z.to_nat 14) close)) in *.
  assert (Hdr : (<[c := PriceFrame fr]> h) !! c = Some (PriceFrame fr))
    by apply lookup_insert_eq.
  set (col := fun w : Z => map (mean_at (Z.to_nat w) close) (seq 0 (length close))).
  assert (Hlines : plot_sma_lines c ticker ws (<[c := PriceFrame fr]> h)
                   = (Ok (map (fun w => (sma_legend w, col w)) ws),
                      <[c := PriceFrame fr]> h)).
  { apply (plot_sma_lines_run c ticker ws _ fr col Hdr).
    intros w Hw. unfold fr.
    rewrite getitem_setitem_ne
      by (intros E; symmetry in E; now apply sma_label_not_rsi in E).
    rewrite (Hin w Hw). apply rolling_mean_ok.
    now apply (proj1 (Forall_forall _ _) Hws). }
  exists c, fr. eexists.
  split; [|split; [apply fresh_is_unused|]].
  - unfold main_full_single. unfold bind at 1. rewrite (copy_run h sd f Hd).
    fold c. unfold bind at 1. rewrite Hma.
    unfold bind at 1, calculate_rsi_default. rewrite Hrsi.
    unfold plot_full_analysis.
    unfold bind at 1. rewrite (run_getcol _ c fr Hdr).
    unfold fr at 1. rewrite getitem_setitem_ne by discriminate. rewrite Hca.
    unfold bind at 1. rewrite Hlines.
    unfold bind at 1. rewrite (run_getcol _ c fr Hdr).
    unfold fr at 1. rewrite getitem_setitem_ne by discriminate. rewrite Hva.
    unfold bind at 1. rewrite (run_getcol _ c fr Hdr).
    unfold fr at 1. rewrite getitem_setitem_eq.
    reflexivity.
  - cbn [price_line volume_bars rsi_line sma_lines].
    split; [reflexivity|]. split; [reflexivity|]. split; [reflexivity|].
    clear - Hws. induction Hws as [|w ws Hw _ IH]; [constructor|].
    cbn [map]. constructor; [|exact IH].
    split; [reflexivity|]. now apply rolling_mean_ok.
Qed.

(** Closes [1,2,1] with volumes and the windows 2 and 3: the figure has
    the volumes and two SMA lines, and the fetched frame is untouched. *)
Lemma full_analysis_runs_witness :
  exists (c : loc) (f' : frame) (fig : figure),
    main_full_single 1%positive "T" [2%Z; 3%Z] traded_store
    = (Ok fig, <[c := PriceFrame f']> traded_store)
    /\ c <> 1%positive
    /\ volume_bars fig = map Fin [100; 120; 90]
    /\ length (sma_lines fig) = 2%nat.
Proof.
  destruct (full_analysis_runs traded_store 1%positive traded_frame "T"%string
              (map Fin [1; 2; 1]) (map Fin [100; 120; 90]) [2%Z; 3%Z])
    as (c & f' & fig & Hrun & Hfresh & _ & Hvol & _ & Hsma).
  - reflexivity.
  - reflexivity.
  - reflexivity.
  - repeat constructor; unfold accepted_window; lia.
  - exists c, f', fig. split; [exact Hrun|].
    split; [intros ->; discriminate|]. split; [exact Hvol|].
    symmetry. exact (Forall2_length Hsma).
Defined.

(** X11.  Whatever its arguments and whether or not it succeeds,
    [main_full_single] changes no object that existed before the call: the
    fetched frame is copied first and only the copy is written to. *)
Theorem full_analysis_leaves_fetched_data_alone :
  forall (h : heap) (stock_data : loc) (ticker : string) (ma_windows : list Z)
         (r : result figure) (h' : heap),
    main_full_single stock_data ticker ma_windows h = (r, h') ->
    forall d, is_Some (h !! d) -> h' !! d = h !! d.
Proof.
  intros h sd ticker ws r h' Hrun d Hsome.
  unfold main_full_single in Hrun. unfold bind at 1 in Hrun.
  destruct (h !! sd) as [[f | ts rows] |] eqn:Hd.
  2,3: unfold copy, bind, read in Hrun; rewrite Hd in Hrun;
       now injection Hrun as <- <-.
  rewrite (copy_run h sd f Hd) in Hrun.
  set (c := fresh (dom h)) in *.
  assert (Hdc : d <> c).
  { intros ->. destruct Hsome as [x Hx]. unfold c in Hx.
    rewrite fresh_is_unused in Hx. discriminate. }
  assert (H1 : (<[c := PriceFrame f]> h) !! d = h !! d)
    by now apply lookup_insert_ne.
  unfold bind at 1 in Hrun.
  destruct (calculate_moving_averages c ticker ws (<[c := PriceFrame f]> h))
    as [r1 h2] eqn:Hma.
  assert (H2 : h2 !! d = h !! d).
  { rewrite <- H1. unfold calculate_moving_averages, bind in Hma.
    destruct (for_windows c ticker ws (<[c := PriceFrame f]> h))
      as [[u|e] hx] eqn:Hloop; injection Hma as <- <-;
      now apply (for_windows_others c ticker ws _ _ _ Hloop). }
  assert (Hr1 : forall d1, r1 = Ok d1 -> d1 = c).
  { intros d1 ->. unfold calculate_moving_averages, bind in Hma.
    destruct (for_windows c ticker ws (<[c := PriceFrame f]> h)) as [[u|e] hx];
      [unfold ret in Hma; congruence | discriminate]. }
  destruct r1 as [d1|e]; [|now injection Hrun as <- <-].
  rewrite (Hr1 d1 eq_refl) in Hrun.
  unfold bind at 1, calculate_rsi_default in Hrun.
  destruct (calculate_rsi c ticker 14 h2) as [r2 h3] eqn:Hrsi.
  assert (H3 : h3 !! d = h !! d).
  { rewrite <- H2. now apply (calculate_rsi_others c ticker 14 h2 r2 h3 Hrsi). }
  destruct r2 as [d2|e]; [|now injection Hrun as <- <-].
  pose proof (plot_full_analysis_pure d2 ticker ws h3) as Hpure.
  rewrite Hrun in Hpure. simpl in Hpure. now subst h'.
Qed.

(** A negative window makes the analysis fail; the fetched frame is as it
    was. *)
Lemma full_analysis_leaves_fetched_data_alone_witness :
  exists (r : result figure) (h' : heap),
    main_full_single 1%positive "T" [(-1)%Z] traded_store = (r, h')
    /\ h' !! 1%positive = Some (PriceFrame traded_frame).
Proof.
  destruct (main_full_single 1%positive "T" [(-1)%Z] traded_store) as [r h'] eqn:Hrun.
  exists r, h'. split; [reflexivity|].
  rewrite (full_analysis_leaves_fetched_data_alone _ _ _ _ _ _ Hrun 1%positive);
    [reflexivity | now eexists].
Defined.

(** ** Correlation: too few dates *)

Lemma complete_obs_length (x y : series) :
  (length (complete_obs x y) <= length x)%nat.
Proof.
  revert y. induction x as [|a x IH]; intros [|b y].
  - simpl. lia.
  - simpl. lia.
  - destruct a; simpl; lia.
  - specialize (IH y). destruct a, b; simpl; lia.
Qed.

Lemma corr_pair_few_dates (x y : series) :
  (length x <= 1)%nat -> corr_pair x y = CNaN.
Proof.
  intros Hx. pose proof (complete_obs_length x y) as Hps.
  unfold corr_pair. destruct (complete_obs x y) as [|[p q] [|pq ps]] eqn:E.
  - reflexivity.
  - cbn [length map fst snd]. cbn [Nat.ltb Nat.leb].
    assert (Hz : ssqdm [p] == 0).
    { apply ssqdm_constant. intros u v [<- | []] [<- | []]. reflexivity. }
    assert (E0 : Qeq_bool (ssqdm [p] * ssqdm [q]) 0 = true)
      by (apply Qeq_bool_iff; rewrite Hz; ring).
    now rewrite E0.
  - simpl in Hps. lia.
Qed.

(** X13.  With at most one date in the panel no coefficient can be
    computed: [calculate_correlation] still succeeds and returns a square
    matrix, and every entry of it, the diagonal included, is NaN. *)
Theorem correlation_of_one_date_is_all_nan :
  forall (h : heap) (data : loc) (f : frame) (cols : list (string * series)),
    h !! data = Some (PriceFrame f) ->
    xs f "Close" = Ok cols ->
    Forall (fun c => (length (snd c) <= 1)%nat) cols ->
    exists (p : loc) (rows : list (list cval)),
      calculate_correlation data h
      = (Ok p, <[p := CorrFrame (map fst cols) rows]> h)
      /\ length rows = length cols
      /\ Forall (fun r => r = repeat CNaN (length cols)) rows.
Proof.
  intros h data f cols Hd Hx Hfew.
  exists (fresh (dom h)), (corr_matrix cols).
  split; [now apply (calculate_correlation_run h data f cols)|].
  split; [apply corr_matrix_square|].
  unfold corr_matrix. apply Forall_map, Forall_forall. intros r Hr.
  apply map_constant. intros c. apply corr_pair_few_dates.
  now apply (proj1 (Forall_forall _ _) Hfew).
Qed.

(** Two tickers, one date: a 2 x 2 matrix of NaN. *)
Lemma correlation_of_one_date_is_all_nan_witness :
  exists (p : loc),
    calculate_correlation 1%positive one_day_store
    = (Ok p, <[p := CorrFrame ["A"%string; "B"%string]
                      [[CNaN; CNaN]; [CNaN; CNaN]]]> one_day_store).
Proof.
  destruct (correlation_of_one_date_is_all_nan one_day_store 1%positive
              one_day_frame [("A"%string, [Fin 3]); ("B"%string, [Fin 7])])
    as (p & rows & Hrun & Hlen & Hrows).
  - reflexivity.
  - reflexivity.
  - repeat constructor.
  - exists p. rewrite Hrun. do 3 f_equal.
    destruct rows as [|r1 [|r2 [|r3 rows]]]; try discriminate.
    apply Forall_cons_iff in Hrows. destruct Hrows as [-> Hrows].
    apply Forall_cons_iff in Hrows. destruct Hrows as [-> _].
    reflexivity.
Defined.

(** ** The argument processing of [main] *)

Example split_examples :
  split_on "," "AAPL,MSFT" = ["AAPL"; "MSFT"]%string
  /\ split_on "," "" = [""%string]
  /\ split_on "," "a,,b," = ["a"; ""; "b"; ""]%string.
Proof. repeat split. Qed.

Example py_int_examples :
  py_int " 50 " = Ok 50%Z /\ py_int "-3" = Ok (-3)%Z /\ py_int "+1_000" = Ok 1000%Z
  /\ py_int "" = Err ValueError /\ py_int "1__0" = Err ValueError
  /\ py_int "_1" = Err ValueError /\ py_int "1_" = Err ValueError
  /\ py_int "5x" = Err ValueError /\ py_int "007" = Ok 7%Z.
Proof. repeat split. Qed.

Example parse_examples :
  parse_tickers " aapl , msft" = ["AAPL"; "MSFT"]%string
  /\ parse_ma_windows "50,200" = Ok [50%Z; 200%Z]
  /\ parse_ma_windows " 20 ,50" = Ok [20%Z; 50%Z].
Proof. repeat split. Qed.

(** *** Splitting at commas *)

Lemma split_on_length (sep : ascii) (s : string) :
  length (split_on sep s) = S (count_char sep s).
Proof.
  induction s as [|c s IH]; [reflexivity|].
  cbn [split_on count_char]. destruct (Ascii.eqb c sep); simpl; [now rewrite IH|].
  destruct (split_on sep s); simpl in *; lia.
Qed.

Lemma split_on_pieces (sep : ascii) (s : string) :
  Forall (fun p => count_char sep p = 0%nat) (split_on sep s).
Proof.
  induction s as [|c s IH]; [repeat constructor|].
  cbn [split_on]. destruct (Ascii.eqb c sep) eqn:E.
  - constructor; [reflexivity | exact IH].
  - destruct (split_on sep s) as [|p ps].
    + constructor; [|constructor]. simpl. now rewrite E.
    + apply Forall_cons_iff in IH. destruct IH as [Hp Hps].
      constructor; [|exact Hps]. simpl. now rewrite E, Hp.
Qed.

Lemma split_on_one_piece (sep : ascii) (p : string) :
  count_char sep p = 0%nat -> split_on sep p = [p].
Proof.
  induction p as [|c p IH]; [reflexivity|].
  cbn [count_char split_on]. destruct (Ascii.eqb c sep); [discriminate|].
  intros Hp. now rewrite IH.
Qed.

Lemma split_on_first_piece (sep : ascii) (p rest : string) :
  count_char sep p = 0%nat ->
  split_on sep (String.append p (String sep rest)) = p :: split_on sep rest.
Proof.
  induction p as [|c p IH]; intros Hp.
  - change (String.append "" (String sep rest)) with (String sep rest).
    cbn [split_on]. now rewrite Ascii.eqb_refl.
  - change (String.append (String c p) (String sep rest))
      with (String c (String.append p (String sep rest))).
    cbn [count_char] in Hp. cbn [split_on].
    destruct (Ascii.eqb c sep); [discriminate|].
    now rewrite IH.
Qed.

(** Splitting what was joined gives the pieces back. *)
Lemma split_on_join (sep : ascii) (pieces : list string) :
  pieces <> [] ->
  Forall (fun p => count_char sep p = 0%nat) pieces ->
  split_on sep (join sep pieces) = pieces.
Proof.
  induction pieces as [|p rest IH]; [congruence|].
  intros _ Hall. apply Forall_cons_iff in Hall. destruct Hall as [Hp Hrest].
  destruct rest as [|q rest].
  - now apply split_on_one_piece.
  - change (join sep (p :: q :: rest))
      with (String.append p (String sep (join sep (q :: rest)))).
    rewrite split_on_first_piece by exact Hp.
    now rewrite IH.
Qed.

(** *** Stripping and raising *)

Lemma is_space_upper_char (c : ascii) : is_space (upper_char c) = is_space c.
Proof. destruct c as [[] [] [] [] [] [] [] []]; reflexivity. Qed.

Lemma upper_char_idem (c : ascii) : upper_char (upper_char c) = upper_char c.
Proof. destruct c as [[] [] [] [] [] [] [] []]; reflexivity. Qed.

Lemma upper_char_comma (c : ascii) :
  Ascii.eqb (upper_char c) "," = Ascii.eqb c ",".
Proof. destruct c as [[] [] [] [] [] [] [] []]; reflexivity. Qed.

Lemma upper_idem (s : string) : upper (upper s) = upper s.
Proof. induction s; simpl; [|rewrite upper_char_idem, IHs]; reflexivity. Qed.

Lemma is_empty_upper (s : string) : is_empty (upper s) = is_empty s.
Proof. now destruct s. Qed.

Lemma lstrip_upper (s : string) : lstrip (upper s) = upper (lstrip s).
Proof.
  induction s as [|c s IH]; [reflexivity|].
  cbn [upper lstrip]. rewrite is_space_upper_char.
  now destruct (is_space c).
Qed.

Lemma rstrip_upper (s : string) : rstrip (upper s) = upper (rstrip s).
Proof.
  induction s as [|c s IH]; [reflexivity|].
  cbn [upper rstrip]. rewrite is_space_upper_char, IH, is_empty_upper.
  now destruct (is_space c && is_empty (rstrip s)).
Qed.

Lemma strip_upper (s : string) : strip (upper s) = upper (strip s).
Proof. unfold strip. now rewrite lstrip_upper, rstrip_upper. Qed.

Lemma lstrip_clean (s : string) : starts_clean (lstrip s).
Proof.
  induction s as [|c s IH]; [exact I|].
  cbn [lstrip]. destruct (is_space c) eqn:E; [exact IH | exact E].
Qed.

Lemma lstrip_of_clean (s : string) : starts_clean s -> lstrip s = s.
Proof. destruct s as [|c s]; [reflexivity|]. simpl. now intros ->. Qed.

Lemma rstrip_clean (s : string) : starts_clean s -> starts_clean (rstrip s).
Proof.
  destruct s as [|c s]; [trivial|]. simpl. intros E. now rewrite E.
Qed.

Lemma rstrip_idem (s : string) : rstrip (rstrip s) = rstrip s.
Proof.
  induction s as [|c s IH]; [reflexivity|].
  cbn [rstrip]. destruct (is_space c && is_empty (rstrip s)) eqn:E; [reflexivity|].
  cbn [rstrip]. now rewrite IH, E.
Qed.

Lemma strip_idem (s : string) : strip (strip s) = strip s.
Proof.
  unfold strip.
  rewrite (lstrip_of_clean (rstrip (lstrip s)))
    by apply rstrip_clean, lstrip_clean.
  apply rstrip_idem.
Qed.

Lemma count_char_upper_comma (s : string) :
  count_char "," (upper s) = count_char "," s.
Proof.
  induction s as [|c s IH]; [reflexivity|].
  cbn [upper count_char]. now rewrite upper_char_comma, IH.
Qed.

Lemma count_char_lstrip (c : ascii) (s : string) :
  count_char c s = 0%nat -> count_char c (lstrip s) = 0%nat.
Proof.
  induction s as [|a s IH]; [trivial|].
  cbn [lstrip]. destruct (is_space a); [|trivial].
  cbn [count_char]. intros H. apply IH. lia.
Qed.

Lemma count_char_rstrip (c : ascii) (s : string) :
  count_char c s = 0%nat -> count_char c (rstrip s) = 0%nat.
Proof.
  induction s as [|a s IH]; [trivial|].
  cbn [rstrip count_char]. intros H.
  destruct (is_space a && is_empty (rstrip s)); [reflexivity|].
  cbn [count_char]. rewrite IH by lia. lia.
Qed.

(** X14.  The ticker list that [main] builds from the TICKERS argument is
    never empty, so [tickers[0]] exists; it has one entry more than the
    argument has commas; every entry is free of commas and is unchanged by
    another [strip()] or [upper()]. *)
Theorem parse_tickers_normalizes :
  forall (arg : string),
    ascii_text arg ->
    exists first others,
      parse_tickers arg = first :: others
      /\ length (parse_tickers arg) = S (count_char "," arg)
      /\ Forall (fun t => strip t = t /\ upper t = t
                          /\ count_char "," t = 0%nat)
                (parse_tickers arg).
Proof.
  intros arg _.
  assert (Hlen : length (parse_tickers arg) = S (count_char "," arg))
    by (unfold parse_tickers; now rewrite length_map, split_on_length).
  destruct (parse_tickers arg) as [|first others] eqn:E; [discriminate|].
  exists first, others. split; [reflexivity|]. split; [exact Hlen|].
  rewrite <- E. unfold parse_tickers.
  apply Forall_map. eapply Forall_impl; [|apply (split_on_pieces "," arg)].
  intros p Hp. cbv beta in *. split; [|split].
  - now rewrite <- strip_upper, strip_idem.
  - apply upper_idem.
  - rewrite count_char_upper_comma. unfold strip.
    now apply count_char_rstrip, count_char_lstrip.
Qed.

Lemma parse_tickers_normalizes_witness :
  exists first others,
    parse_tickers " aapl , msft" = first :: others
    /\ length (parse_tickers " aapl , msft") = 2%nat.
Proof.
  destruct (parse_tickers_normalizes " aapl , msft") as (first & others & H1 & H2 & _).
  - cbn [ascii_text]. repeat split; apply Nat.ltb_lt; reflexivity.
  - now exists first, others.
Defined.

(** *** Window lists *)

Lemma comprehension_fails {A B} (body : A -> result B) (l : list A) :
  (forall x e, body x = Err e -> e = ValueError) ->
  Exists (fun x => exists e, body x = Err e) l ->
  comprehension body l = Err ValueError.
Proof.
  intros Hval. induction 1 as [x l [e He] | x l _ IH]; cbn [comprehension].
  - rewrite He. simpl. now rewrite (Hval x e He).
  - destruct (body x) as [y|e] eqn:E; simpl.
    + now rewrite IH.
    + now rewrite (Hval x e E).
Qed.

Lemma py_int_error (s : string) (e : exn) : py_int s = Err e -> e = ValueError.
Proof.
  unfold py_int. cbv zeta.
  destruct (max_str_digits <? count_digits (strip s))%nat;
    destruct (strip s) as [|c digits].
  - now intros [= <-].
  - destruct (Ascii.eqb c "+"); [|destruct (Ascii.eqb c "-")];
      match goal with |- context [option_map ?g ?o] => destruct o end;
      cbn [option_map]; congruence.
  - now intros [= <-].
  - destruct (Ascii.eqb c "+"); [|destruct (Ascii.eqb c "-")];
      match goal with |- context [option_map ?g ?o] => destruct o end;
      cbn [option_map]; congruence.
Qed.

(** A literal of more digits than the limit is refused, whatever it
    is. *)
Lemma py_int_digit_limit (s : string) :
  (max_str_digits < count_digits (strip s))%nat -> py_int s = Err ValueError.
Proof.
  intros Hover. unfold py_int. cbv zeta.
  destruct (Nat.ltb_spec max_str_digits (count_digits (strip s))) as [_|Hin];
    [|lia].
  now destruct (match strip s with EmptyString => _ | String _ _ => _ end).
Qed.

(** X15.  A blank field in the [--ma] argument (nothing, or only
    whitespace, between two commas, before the first or after the last)
    makes the window list of [main] fail with ValueError; so does the
    empty argument. *)
Theorem parse_ma_windows_rejects_blank_field :
  forall (arg : string),
    Exists (fun w => strip w = EmptyString) (split_on "," arg) ->
    parse_ma_windows arg = Err ValueError.
Proof.
  intros arg Hblank. unfold parse_ma_windows.
  apply comprehension_fails.
  - intros w e. apply py_int_error.
  - eapply Exists_impl; [|exact Hblank].
    intros w Hw. cbv beta in Hw. exists ValueError.
    unfold py_int. now rewrite strip_idem, Hw.
Qed.

(** A trailing comma. *)
Lemma parse_ma_windows_rejects_blank_field_witness :
  parse_ma_windows "50," = Err ValueError.
Proof.
  apply parse_ma_windows_rejects_blank_field.
  apply Exists_cons_tl, Exists_cons_hd. reflexivity.
Defined.

Lemma uint_of_char_plain (c : ascii) (d d' : Decimal.uint) :
  uint_of_char c (Some d) = Some d' -> plain_char c /\ Ascii.eqb c "-" = false.
Proof.
  intros H. apply uint_of_char_spec in H.
  unfold plain_char.
  repeat (destruct H as [[-> _] | H]; [now repeat split|]).
  destruct H as [-> _]. now repeat split.
Qed.

Lemma uint_of_string_plain (s : string) (d : Decimal.uint) :
  NilEmpty.uint_of_string s = Some d ->
  all_chars (fun c => plain_char c /\ Ascii.eqb c "-" = false) s.
Proof.
  revert d. induction s as [|c s IH]; intros d H; [exact I|].
  cbn [NilEmpty.uint_of_string] in H.
  destruct (NilEmpty.uint_of_string s) as [d0|] eqn:E; [|now destruct c as [[] [] [] [] [] [] [] []]].
  split; [now apply (uint_of_char_plain c d0 d) | now apply (IH d0)].
Qed.

Lemma py_digits_plain (s : string) (d : Decimal.uint) (b : bool) :
  s <> EmptyString ->
  NilEmpty.uint_of_string s = Some d ->
  py_digits b s = Some d.
Proof.
  revert d b. induction s as [|c s IH]; intros d b Hne H; [congruence|].
  cbn [NilEmpty.uint_of_string] in H.
  destruct (NilEmpty.uint_of_string s) as [d0|] eqn:E; [|now destruct c as [[] [] [] [] [] [] [] []]].
  destruct (uint_of_char_plain c d0 d H) as [(_ & _ & Hu & _) _].
  cbn [py_digits]. rewrite Hu.
  destruct s as [|c' s'].
  - simpl in E. injection E as <-. exact H.
  - now rewrite (IH d0 true).
Qed.

Lemma lstrip_plain (s : string) :
  all_chars (fun c => is_space c = false) s -> lstrip s = s.
Proof. destruct s as [|c s]; [reflexivity|]. simpl. now intros [-> _]. Qed.

Lemma rstrip_plain (s : string) :
  all_chars (fun c => is_space c = false) s -> rstrip s = s.
Proof.
  induction s as [|c s IH]; [reflexivity|].
  intros [Hc Hs]. cbn [rstrip]. now rewrite Hc, IH.
Qed.

Lemma strip_plain (s : string) :
  all_chars (fun c => is_space c = false) s -> strip s = s.
Proof. intros H. unfold strip. now rewrite lstrip_plain, rstrip_plain. Qed.

Lemma all_chars_impl (P Q : ascii -> Prop) (s : string) :
  (forall c, P c -> Q c) -> all_chars P s -> all_chars Q s.
Proof. intros HPQ. induction s; simpl; intuition. Qed.

Lemma count_char_plain (s : string) :
  all_chars (fun c => Ascii.eqb c "," = false) s -> count_char "," s = 0%nat.
Proof.
  induction s as [|c s IH]; [reflexivity|].
  intros [Hc Hs]. cbn [count_char]. now rewrite Hc, IH.
Qed.

(** The printed form of a natural number in decimal. *)
Lemma string_of_uint_parses (p : positive) :
  let s := NilEmpty.string_of_uint (Pos.to_uint p) in
  s <> EmptyString /\ NilEmpty.uint_of_string s = Some (Pos.to_uint p).
Proof.
  cbv zeta. split; [|apply NilEmpty.usu].
  pose proof (DecimalPos.Unsigned.to_uint_nonnil p) as Hn.
  now destruct (Pos.to_uint p).
Qed.

Lemma py_str_chars (z : Z) :
  all_chars (fun c => is_space c = false /\ Ascii.eqb c "," = false) (py_str z).
Proof.
  unfold py_str. destruct z as [|p|p]; cbn [Z.to_int NilZero.string_of_int].
  - simpl. repeat split.
  - destruct (string_of_uint_parses p) as [_ Hp].
    replace (NilZero.string_of_uint (Pos.to_uint p))
      with (NilEmpty.string_of_uint (Pos.to_uint p))
      by (pose proof (DecimalPos.Unsigned.to_uint_nonnil p);
          now destruct (Pos.to_uint p)).
    eapply all_chars_impl; [|exact (uint_of_string_plain _ _ Hp)].
    intros c [(H1 & H2 & _) _]. now split.
  - destruct (string_of_uint_parses p) as [_ Hp].
    replace (NilZero.string_of_uint (Pos.to_uint p))
      with (NilEmpty.string_of_uint (Pos.to_uint p))
      by (pose proof (DecimalPos.Unsigned.to_uint_nonnil p);
          now destruct (Pos.to_uint p)).
    split; [now split|].
    eapply all_chars_impl; [|exact (uint_of_string_plain _ _ Hp)].
    intros c [(H1 & H2 & _) _]. now split.
Qed.

(** [int(str(n))] is [n], for an integer within the digit limit. *)
Lemma py_int_py_str (z : Z) :
  (count_digits (py_str z) <= max_str_digits)%nat -> py_int (py_str z) = Ok z.
Proof.
  intros Hlim. unfold py_int. cbv zeta.
  rewrite strip_plain
    by (eapply all_chars_impl; [|apply py_str_chars]; now intros c [H _]).
  destruct (Nat.ltb_spec max_str_digits (count_digits (py_str z))) as [Hover|_];
    [lia|].
  clear Hlim.
  unfold py_str. destruct z as [|p|p]; cbn [Z.to_int NilZero.string_of_int].
  - reflexivity.
  - destruct (string_of_uint_parses p) as [Hne Hp].
    replace (NilZero.string_of_uint (Pos.to_uint p))
      with (NilEmpty.string_of_uint (Pos.to_uint p))
      by (pose proof (DecimalPos.Unsigned.to_uint_nonnil p);
          now destruct (Pos.to_uint p)).
    destruct (NilEmpty.string_of_uint (Pos.to_uint p)) as [|c s] eqn:Es;
      [congruence|].
    destruct (uint_of_string_plain _ _ Hp) as [[(_ & _ & _ & Hplus) Hminus] _].
    assert (Hcs : String c s <> EmptyString) by discriminate.
    rewrite Hplus, Hminus, (py_digits_plain _ _ false Hcs Hp).
    cbn [option_map]. f_equal.
    exact (DecimalZ.of_to (Z.pos p)).
  - destruct (string_of_uint_parses p) as [Hne Hp].
    replace (NilZero.string_of_uint (Pos.to_uint p))
      with (NilEmpty.string_of_uint (Pos.to_uint p))
      by (pose proof (DecimalPos.Unsigned.to_uint_nonnil p);
          now destruct (Pos.to_uint p)).
    change (Ascii.eqb "-" "+") with false. change (Ascii.eqb "-" "-") with true.
    cbv iota. rewrite (py_digits_plain _ _ false Hne Hp).
    cbn [option_map]. f_equal.
    exact (DecimalZ.of_to (Z.neg p)).
Qed.

(** X16.  The window list survives the trip through the command line:
    for a non-empty list of integers of at most 4300 digits each, written
    in decimal and joined by commas, [main] reads back exactly that
    list. *)
Theorem parse_ma_windows_reads_back :
  forall (windows : list Z),
    windows <> [] ->
    Forall (fun w => (count_digits (py_str w) <= max_str_digits)%nat) windows ->
    parse_ma_windows (join "," (map py_str windows)) = Ok windows.
Proof.
  intros windows Hne Hlim. unfold parse_ma_windows.
  rewrite split_on_join.
  - clear Hne. induction Hlim as [|w ws Hw _ IH]; [reflexivity|].
    cbn [map comprehension].
    rewrite strip_plain
      by (eapply all_chars_impl; [|apply py_str_chars]; now intros c [H _]).
    rewrite (py_int_py_str w Hw). cbn [rbind]. now rewrite IH.
  - destruct windows; [congruence | discriminate].
  - apply Forall_map, Forall_forall. intros w _.
    apply count_char_plain.
    eapply all_chars_impl; [|apply py_str_chars]. now intros c [_ H].
Qed.

(** The default of the [--ma] option. *)
Lemma parse_ma_windows_reads_back_witness :
  parse_ma_windows "50,200" = Ok [50%Z; 200%Z].
Proof.
  apply (parse_ma_windows_reads_back [50%Z; 200%Z]); [discriminate|].
  repeat constructor; apply Nat.leb_le; reflexivity.
Defined.
